(** * Local background subtraction for target pixel files

    A shallow embedding of [my_custom_lc_cleaner] from the tutorial
    notebook [docs/source/tutorials/1.05-interact-with-lightcurves-and-tpf.ipynb]
    and of the numpy operations it is written with.

    Arrays are lists of rows; boolean masks are [list (list bool)].  Flux
    values are floats in the notebook; here a finite float is an exact
    rational and the only special value is NaN, which is what [np.isnan]
    looks for.  Rounding, signed zeros and infinities are outside the model.
    Time stamps are rationals as well. *)

From Stdlib Require Import QArith.
From stdpp Require Import base option list.

Local Open Scope nat_scope.

(** ** Flux values *)

Inductive fval : Type :=
  | Num (q : Q)
  | NaN.

Definition isnan (x : fval) : bool :=
  match x with NaN => true | Num _ => false end.

Definition fadd (x y : fval) : fval :=
  match x, y with
  | Num a, Num b => Num (a + b)%Q
  | _, _ => NaN
  end.

Definition fneg (x : fval) : fval :=
  match x with Num a => Num (- a)%Q | NaN => NaN end.

Definition fsub (x y : fval) : fval :=
  match x, y with
  | Num a, Num b => Num (a - b)%Q
  | _, _ => NaN
  end.

(** Division of a flux value by a pixel count; callers check [n <> 0]. *)
Definition fdiv_count (x : fval) (n : nat) : fval :=
  match x with
  | Num a => Num (a / inject_Z (Z.of_nat n))%Q
  | NaN => NaN
  end.

Definition fsum (l : list fval) : fval := foldr fadd (Num 0) l.

(** ** Outcomes

    [ShapeMismatch] is numpy's ValueError for operands that cannot be
    broadcast together.  [DivisionByZero] records that a light curve was
    divided by a zero pixel count, a case the routine does not guard: the
    marker says that the division was reached, not that Python raises.
    [BadReference] is a read through a reference that does not hold an
    array of the expected kind.  [InfiniteFlux] is a flux that would be an
    infinity, which the flux values here do not have. *)

Inductive failure : Type :=
  | ShapeMismatch
  | DivisionByZero
  | BadReference
  | InfiniteFlux.

Inductive result (A : Type) : Type :=
  | Ok (a : A)
  | Fail (f : failure).
Arguments Ok {A} a.
Arguments Fail {A} f.

Definition rbind {A B} (r : result A) (k : A → result B) : result B :=
  match r with Ok a => k a | Fail f => Fail f end.

Notation "x <- r ;; k" := (rbind r (λ x, k))
  (at level 100, r at next level, right associativity, only parsing).

(** ** Two- and three-dimensional arrays *)

Abbreviation mask := (list (list bool)).

(** Shape of a list of rows.  An array without rows is taken to have no
    columns either. *)
Definition shape2 {A} (a : list (list A)) : nat * nat :=
  (length a, from_option length 0 (head a)).

(** [a] has [H] rows of [W] cells each. *)
Definition rectb {A} (H W : nat) (a : list (list A)) : bool :=
  (length a =? H) && forallb (λ row, length row =? W) a.

(** A stack of frames indexed (time, row, column), with its spatial shape:
    the reduction along the time axis needs it when there is no frame. *)
Record ndarray3 (A : Type) : Type := Cube {
  nrows : nat;
  ncols : nat;
  frames : list (list (list A))
}.
Arguments Cube {A} _ _ _.
Arguments nrows {A} _.
Arguments ncols {A} _.
Arguments frames {A} _.

Definition cube_wfb {A} (c : ndarray3 A) : bool :=
  forallb (rectb (nrows c) (ncols c)) (frames c).

(** *** Elementwise operations *)

(** [a * s] for a boolean array and a Python bool: numpy multiplies
    booleans as a logical and and returns a new array. *)
Definition np_mul_scalar (a : mask) (s : bool) : mask :=
  map (map (λ b, b && s)) a.

(** [~a] *)
Definition np_invert (a : mask) : mask := map (map negb) a.

(** [np.isnan(c)] *)
Definition np_isnan (c : ndarray3 fval) : ndarray3 bool :=
  Cube (nrows c) (ncols c) (map (map (map isnan)) (frames c)).

(** [np.all(c, axis=0)]: a logical-and reduction over the frames, whose
    unit is the all-true array. *)
Definition np_all_axis0 (c : ndarray3 bool) : mask :=
  foldr (zip_with (zip_with andb))
        (replicate (nrows c) (replicate (ncols c) true)) (frames c).

(** The sum of a list of booleans, true counting for 1. *)
Definition count_true (l : list bool) : nat :=
  sum_list_with (λ b : bool, if b then 1 else 0) l.

(** [a.sum()] of a boolean array: the number of true cells. *)
Definition np_sum (a : mask) : nat := count_true (concat a).

(** *** Slices *)

(** A bound of a Python slice (step 1) over a sequence of length [n]:
    a negative bound counts from the end, and the result is clamped to
    [0, n]. *)
Definition slice_bound (n : nat) (i : Z) : nat :=
  Z.to_nat (Z.min (Z.max (if (i <? 0)%Z then (i + Z.of_nat n)%Z else i) 0)
                  (Z.of_nat n)).

Definition in_slice (n : nat) (start stop : Z) (k : nat) : bool :=
  (slice_bound n start <=? k) && (k <? slice_bound n stop).

(** [a[r0:r1, c0:c1] = v], in terms of the updated array. *)
Definition setitem_slice2 {A} (a : list (list A)) (r0 r1 c0 c1 : Z) (v : A)
  : list (list A) :=
  imap (λ i row,
          if in_slice (length a) r0 r1 i
          then imap (λ j x, if in_slice (length row) c0 c1 j then v else x) row
          else row) a.

(** *** Broadcasting of two-dimensional operands *)

Definition broadcast_dim (n m : nat) : option nat :=
  if n =? m then Some n
  else if n =? 1 then Some m
  else if m =? 1 then Some n
  else None.

Definition stretch {A} (n : nat) (l : list A) : list A :=
  match l with
  | [x] => replicate n x
  | _ => l
  end.

Definition broadcast_to {A} (H W : nat) (a : list (list A)) : list (list A) :=
  stretch H (map (stretch W) a).

(** [a & b] *)
Definition np_and (a b : mask) : result mask :=
  match broadcast_dim (shape2 a).1 (shape2 b).1,
        broadcast_dim (shape2 a).2 (shape2 b).2 with
  | Some H, Some W =>
      Ok (zip_with (zip_with andb) (broadcast_to H W a) (broadcast_to H W b))
  | _, _ => Fail ShapeMismatch
  end.

(** ** The aperture partitioner (first three statements of the routine) *)

(** [aper_mask = tpf.pipeline_mask * False; aper_mask[1:-1, 1:-1] = True] *)
Definition aper_mask_of (pipeline_mask : mask) : mask :=
  setitem_slice2 (np_mul_scalar pipeline_mask false) 1 (-1) 1 (-1) true.

(** [back_mask = ~aper_mask & ~np.all(np.isnan(tpf.flux), axis=0)] *)
Definition back_mask_of (pipeline_mask : mask) (flux : ndarray3 fval)
  : result mask :=
  np_and (np_invert (aper_mask_of pipeline_mask))
         (np_invert (np_all_axis0 (np_isnan flux))).

(** ** Reading arrays by index *)

Definition get2 {A} (a : list (list A)) (i j : nat) : option A :=
  a !! i ≫= (.!! j).

Definition tabulate2 {A} (H W : nat) (f : nat → nat → A) : list (list A) :=
  map (λ i, map (f i) (seq 0 W)) (seq 0 H).

(** The cells that are neither in the first nor in the last row or column
    of an [H] by [W] grid. *)
Definition interior (H W i j : nat) : bool :=
  (1 <=? i) && (i <? H - 1) && ((1 <=? j) && (j <? W - 1)).

(** The pixel at [(i, j)] is NaN in every frame of the cube. *)
Definition allnan_at (c : ndarray3 fval) (i j : nat) : bool :=
  forallb (λ fr, from_option isnan false (get2 fr i j)) (frames c).

(** ** Target pixel files and light curves *)

Record TargetPixelFile : Type := TPF {
  time : list Q;
  flux : ndarray3 fval;
  pipeline_mask : mask
}.

Record LightCurve : Type := LC {
  lc_time : list Q;
  lc_flux : list fval
}.

(** The cells of a row, then of a frame, that a boolean mask selects
    ([frame[mask]]), in row-major order. *)
Fixpoint select_row {A} (row : list A) (mrow : list bool) : list A :=
  match row, mrow with
  | x :: row', b :: mrow' =>
      if b then x :: select_row row' mrow' else select_row row' mrow'
  | _, _ => []
  end.

Definition select {A} (frame : list (list A)) (m : mask) : list A :=
  concat (zip_with select_row frame m).

(** Modelled from the spec: [KeplerTargetPixelFile.to_lightcurve] belongs to
    the library, not to the notebook.  Per time sample it gives the sum of
    flux over all true mask locations; the time stamps are those of the
    pixel file. *)
Definition to_lightcurve_of (t : list Q) (c : ndarray3 fval)
    (aperture_mask : mask) : LightCurve :=
  LC t (map (λ fr, fsum (select fr aperture_mask)) (frames c)).

Definition to_lightcurve (tpf : TargetPixelFile) (aperture_mask : mask)
  : LightCurve :=
  to_lightcurve_of (time tpf) (flux tpf) aperture_mask.

(** Modelled from the spec: [LightCurve.__truediv__] belongs to the library.
    Every flux is divided by the count; with a zero count a division by
    zero occurs, which is not handled. *)
Definition lc_div (lc : LightCurve) (n : nat) : result LightCurve :=
  if n =? 0 then Fail DivisionByZero
  else Ok (LC (lc_time lc) (map (λ x, fdiv_count x n) (lc_flux lc))).

(** IEEE division of a flux value by a zero count: 0/0 and NaN/0 are NaN; a
    nonzero flux gives an infinity, which the flux values here do not
    have. *)
Definition fdiv_zero (x : fval) : option fval :=
  match x with
  | Num a => if Qeq_bool a 0 then Some NaN else None
  | NaN => Some NaN
  end.

(** Modelled from the spec: the division of a light curve by a pixel count
    as the routine performs it.  Nothing handles a zero count: the floats
    are divided all the same and the routine goes on with the result.
    [InfiniteFlux] stands for a result with an infinity in it. *)
Definition lc_truediv (lc : LightCurve) (n : nat) : result LightCurve :=
  match lc_div lc n with
  | Ok lc' => Ok lc'
  | Fail _ =>
      match mapM fdiv_zero (lc_flux lc) with
      | Some fl => Ok (LC (lc_time lc) fl)
      | None => Fail InfiniteFlux
      end
  end.

(** Modelled from the spec: [LightCurve.__sub__] belongs to the library.
    The flux at each cadence is the flux of the light curve minus the value
    of the other series at the same cadence index; nothing is resampled. *)
Definition lc_sub (lc : LightCurve) (other : list fval) : LightCurve :=
  LC (lc_time lc) (zip_with fsub (lc_flux lc) other).

(** Modelled from the spec: negation of a light curve, which the spec uses
    to state the antisymmetry of the subtraction. *)
Definition lc_neg (lc : LightCurve) : LightCurve :=
  LC (lc_time lc) (map fneg (lc_flux lc)).

(** The flux aggregator as the routine uses it:
    [tpf.to_lightcurve(aperture_mask=m) / m.sum()]. *)
Definition flux_aggregator (tpf : TargetPixelFile) (m : mask)
  : result LightCurve :=
  lc_div (to_lightcurve tpf m) (np_sum m).

(** [lc_aper - lc_back.flux] *)
Definition background_subtractor (lc_aper lc_back : LightCurve) : LightCurve :=
  lc_sub lc_aper (lc_flux lc_back).

(** ** The routine over a store of array objects

    numpy arrays are mutable objects and Python variables hold references
    to them.  The store is the list of the objects allocated so far, a
    reference is an index into it, and an allocation appends; objects are
    never reclaimed.  A program returns its outcome together with the store
    it leaves, also when it fails. *)

Inductive obj : Type :=
  | BoolArray (a : mask)
  | FloatCube (c : ndarray3 fval)
  | BoolCube (c : ndarray3 bool).

Abbreviation heap := (list obj).

Record TPFObject : Type := TPFObj {
  time_of : list Q;
  flux_ref : nat;
  pipeline_mask_ref : nat
}.

Definition prog (A : Type) : Type := heap → result A * heap.

Definition ret {A} (a : A) : prog A := λ h, (Ok a, h).

Definition pbind {A B} (p : prog A) (k : A → prog B) : prog B :=
  λ h, match p h with
       | (Ok a, h') => k a h'
       | (Fail f, h') => (Fail f, h')
       end.

Notation "x <~ p ;; k" := (pbind p (λ x, k))
  (at level 100, p at next level, right associativity, only parsing).

Definition lift {A} (r : result A) : prog A := λ h, (r, h).

(** A new object, behind the ones there are. *)
Definition alloc (o : obj) : prog nat := λ h, (Ok (length h), h ++ [o]).

Definition load_mask (l : nat) : prog mask :=
  λ h, (match h !! l with
        | Some (BoolArray a) => Ok a
        | _ => Fail BadReference
        end, h).

Definition load_cube (l : nat) : prog (ndarray3 fval) :=
  λ h, (match h !! l with
        | Some (FloatCube c) => Ok c
        | _ => Fail BadReference
        end, h).

Definition load_bool_cube (l : nat) : prog (ndarray3 bool) :=
  λ h, (match h !! l with
        | Some (BoolCube c) => Ok c
        | _ => Fail BadReference
        end, h).

(** In-place update: the object at [l] is overwritten, whatever it is. *)
Definition store (l : nat) (o : obj) : prog unit :=
  λ h, if l <? length h then (Ok tt, <[l := o]> h) else (Fail BadReference, h).

Section Cleaner.

(** [LightCurve.remove_outliers] is an external algorithm; it returns a
    new light curve. *)
Variable remove_outliers : LightCurve → LightCurve.

(** The routine on array values.  A zero pixel count does not stop it: the
    division goes through ([lc_truediv]) and the routine carries on to the
    subtraction, the outlier removal and the return. *)
Definition my_custom_lc_cleaner (tpf : TargetPixelFile) : result LightCurve :=
  let aper_mask := aper_mask_of (pipeline_mask tpf) in
  back_mask <- back_mask_of (pipeline_mask tpf) (flux tpf) ;;
  lc_aper <- lc_truediv (to_lightcurve tpf aper_mask) (np_sum aper_mask) ;;
  lc_back <- lc_truediv (to_lightcurve tpf back_mask) (np_sum back_mask) ;;
  let lc_bg_sub := background_subtractor lc_aper lc_back in
  let lc_cln := remove_outliers lc_bg_sub in
  Ok lc_cln.

(** The routine statement by statement over the store.  Every numpy
    operation returns a new array; the slice assignment writes into the
    array its target refers to. *)
Definition my_custom_lc_cleaner_prog (tpf : TPFObject) : prog LightCurve :=
  (* aper_mask = tpf.pipeline_mask * False *)
  pm <~ load_mask (pipeline_mask_ref tpf) ;;
  aper_mask <~ alloc (BoolArray (np_mul_scalar pm false)) ;;
  (* aper_mask[1:-1, 1:-1] = True *)
  a <~ load_mask aper_mask ;;
  _ <~ store aper_mask (BoolArray (setitem_slice2 a 1 (-1) 1 (-1) true)) ;;
  (* back_mask = ~aper_mask & ~np.all(np.isnan(tpf.flux), axis=0) *)
  a <~ load_mask aper_mask ;;
  not_aper <~ alloc (BoolArray (np_invert a)) ;;
  c <~ load_cube (flux_ref tpf) ;;
  nans <~ alloc (BoolCube (np_isnan c)) ;;
  n <~ load_bool_cube nans ;;
  all_nan <~ alloc (BoolArray (np_all_axis0 n)) ;;
  x <~ load_mask all_nan ;;
  not_all_nan <~ alloc (BoolArray (np_invert x)) ;;
  l <~ load_mask not_aper ;;
  r <~ load_mask not_all_nan ;;
  b <~ lift (np_and l r) ;;
  back_mask <~ alloc (BoolArray b) ;;
  (* lc_aper = tpf.to_lightcurve(aperture_mask=aper_mask) / aper_mask.sum() *)
  a <~ load_mask aper_mask ;;
  c <~ load_cube (flux_ref tpf) ;;
  lc_aper <~ lift (lc_truediv (to_lightcurve_of (time_of tpf) c a) (np_sum a)) ;;
  (* lc_back = tpf.to_lightcurve(aperture_mask=back_mask) / back_mask.sum() *)
  b <~ load_mask back_mask ;;
  c <~ load_cube (flux_ref tpf) ;;
  lc_back <~ lift (lc_truediv (to_lightcurve_of (time_of tpf) c b) (np_sum b)) ;;
  (* lc_bg_sub = lc_aper - lc_back.flux; lc_cln = lc_bg_sub.remove_outliers() *)
  ret (remove_outliers (background_subtractor lc_aper lc_back)).

End Cleaner.

(** The pixel file that the objects of a store describe. *)
Definition tpf_in (h : heap) (tpf : TPFObject) : option TargetPixelFile :=
  match h !! pipeline_mask_ref tpf, h !! flux_ref tpf with
  | Some (BoolArray pm), Some (FloatCube c) => Some (TPF (time_of tpf) c pm)
  | _, _ => None
  end.

(** The store [h'] still holds every object of [h], unchanged. *)
Definition keeps (h h' : heap) : Prop :=
  ∀ l o, h !! l = Some o → h' !! l = Some o.

(** Started in a store that keeps [h0], the program [p] leaves a store that
    keeps [h0], whatever its outcome, and a value it returns satisfies [Q]. *)
Definition preserves {A} (h0 : heap) (p : prog A) (Q : A → Prop) : Prop :=
  ∀ h, keeps h0 h → keeps h0 (p h).2 ∧ ∀ a, (p h).1 = Ok a → Q a.

(** ** Notions of the specification *)

(** No cell is true in both masks. *)
Definition disjoint2 (a b : mask) : Prop :=
  ∀ i j, ¬ (get2 a i j = Some true ∧ get2 b i j = Some true).

(** The pixel at [(i, j)] is invalid across all time samples. *)
Definition all_time_invalid (c : ndarray3 fval) (i j : nat) : Prop :=
  ∀ t fr, frames c !! t = Some fr → get2 fr i j = Some NaN.

(** A pixel file whose mask and frames are all [H] by [W]. *)
Definition tpf_wfb (H W : nat) (tpf : TargetPixelFile) : bool :=
  rectb H W (pipeline_mask tpf) && cube_wfb (flux tpf)
  && (nrows (flux tpf) =? H) && (ncols (flux tpf) =? W).

(** From the spec's words: a mask "eroded by one pixel on each border"
    keeps its true cells except those of the first and last row and of
    the first and last column. *)
Definition spec_eroded (m : mask) : mask :=
  imap (λ i row, imap (λ j b, b && interior (length m) (length row) i j) row) m.

(** From the spec's words: the background ring as "all non-source,
    non-missing pixels". *)
Definition spec_background (source : mask) (c : ndarray3 fval) : mask :=
  imap (λ i row, imap (λ j b, negb b && negb (allnan_at c i j)) row) source.

(** No flux of the cube is NaN. *)
Definition no_nanb (c : ndarray3 fval) : bool :=
  forallb (forallb (forallb (λ x, negb (isnan x)))) (frames c).

(** ** Sample data *)

Definition full {A} (H W : nat) (x : A) : list (list A) :=
  replicate H (replicate W x).

Definition cube_of (H W T : nat) (x : fval) : ndarray3 fval :=
  Cube H W (replicate T (full H W x)).

(** The border ring of the 3 by 3 grid. *)
Definition ring3 : mask :=
  [[true; true; true]; [true; false; true]; [true; true; true]].

(** Two 3 by 3 frames: the border of the first sums to 16, the second has a
    NaN in a corner. *)
Definition frame_a : list (list fval) :=
  [[Num 1; Num 2; Num 1]; [Num 3; Num 10; Num 1]; [Num 1; Num 1; Num 6]].

Definition frame_b : list (list fval) :=
  [[Num 1; Num 1; Num 1]; [Num 1; Num 7; Num 1]; [Num 1; Num 1; NaN]].

(** * Properties *)

(** ** The routine on sample data *)

Example slice_bound_samples :
  (slice_bound 5 (-1), slice_bound 2 (-1), slice_bound 0 (-1),
   slice_bound 5 1, slice_bound 0 1) = (4, 1, 0, 1, 0).
Proof. reflexivity. Qed.

Example aper_mask_of_4x5 :
  aper_mask_of [[true; false; true; true; false];
                [false; false; true; false; true];
                [true; true; false; false; false];
                [false; true; true; true; true]] =
  [[false; false; false; false; false];
   [false; true; true; true; false];
   [false; true; true; true; false];
   [false; false; false; false; false]].
Proof. reflexivity. Qed.

Example aper_mask_of_1x4 :
  aper_mask_of [[true; true; false; true]] = [[false; false; false; false]].
Proof. reflexivity. Qed.

Example back_mask_of_nan_corner :
  back_mask_of (full 3 3 true) (Cube 3 3 [frame_b]) =
  Ok [[true; true; true]; [true; false; true]; [true; true; false]].
Proof. reflexivity. Qed.

Example back_mask_of_shape_mismatch :
  back_mask_of (full 3 3 true) (cube_of 2 3 1 (Num 1)) = Fail ShapeMismatch.
Proof. reflexivity. Qed.

(** Centre minus mean of the border: 10 - 16/8. *)
Example my_custom_lc_cleaner_3x3 :
  my_custom_lc_cleaner (λ lc, lc)
    (TPF [0%Q] (Cube 3 3 [frame_a]) (full 3 3 false)) =
  Ok (LC [0%Q] [Num (64 # 8)]).
Proof. reflexivity. Qed.

(** On a 2 by 2 grid the inner aperture is empty: its series is 0/0, and the
    routine returns a NaN flux. *)
Example my_custom_lc_cleaner_2x2 :
  my_custom_lc_cleaner (λ lc, lc)
    (TPF [0%Q] (cube_of 2 2 1 (Num 1)) (full 2 2 true)) = Ok (LC [0%Q] [NaN]).
Proof. reflexivity. Qed.

(** ** Rectangular arrays and tables *)

Lemma rectb_spec {A} H W (a : list (list A)) :
  rectb H W a = true ↔ length a = H ∧ ∀ i row, a !! i = Some row → length row = W.
Proof.
  unfold rectb. rewrite andb_true_iff, Nat.eqb_eq, forallb_forall.
  split; intros [HH HW]; split; auto.
  - intros i row Hi. apply Nat.eqb_eq, HW, list_elem_of_In.
    eapply list_elem_of_lookup_2; eauto.
  - intros row Hin. apply list_elem_of_In, list_elem_of_lookup in Hin as [i Hi].
    apply Nat.eqb_eq. eauto.
Qed.

Lemma get2_tabulate2 {A} H W (f : nat → nat → A) i j :
  get2 (tabulate2 H W f) i j =
  if (i <? H) && (j <? W) then Some (f i j) else None.
Proof.
  unfold get2, tabulate2. rewrite list_lookup_fmap.
  destruct (Nat.ltb_spec i H) as [Hi|Hi]; simpl.
  - rewrite lookup_seq_lt by done. simpl. rewrite list_lookup_fmap.
    destruct (Nat.ltb_spec j W) as [Hj|Hj].
    + by rewrite lookup_seq_lt.
    + by rewrite lookup_seq_ge.
  - by rewrite lookup_seq_ge.
Qed.

Lemma tabulate2_ext {A} H W (f g : nat → nat → A) :
  (∀ i j, i < H → j < W → f i j = g i j) → tabulate2 H W f = tabulate2 H W g.
Proof.
  intros Hfg. unfold tabulate2. apply map_ext_in. intros i Hi%in_seq.
  apply map_ext_in. intros j Hj%in_seq. apply Hfg; lia.
Qed.

Lemma rectb_tabulate2 {A} H W (f : nat → nat → A) :
  rectb H W (tabulate2 H W f) = true.
Proof.
  apply rectb_spec. unfold tabulate2. split.
  - by rewrite length_map, length_seq.
  - intros i row. rewrite list_lookup_fmap. intros Hrow.
    apply fmap_Some in Hrow as (k & _ & ->). by rewrite length_map, length_seq.
Qed.

(** An array is the table of its cells. *)
Lemma rect_tabulate2 {A} H W (a : list (list A)) (f : nat → nat → A) :
  rectb H W a = true →
  (∀ i j, i < H → j < W → get2 a i j = Some (f i j)) →
  a = tabulate2 H W f.
Proof.
  intros [HH HW]%rectb_spec Hget. apply list_eq. intros i.
  unfold tabulate2. rewrite list_lookup_fmap.
  destruct (a !! i) as [row|] eqn:Hrow.
  - assert (i < H) as Hi by (rewrite <- HH; eapply lookup_lt_Some; eauto).
    rewrite lookup_seq_lt by done. simpl. f_equal.
    apply list_eq. intros j. rewrite list_lookup_fmap.
    destruct (Nat.lt_ge_cases j W) as [Hj|Hj].
    + rewrite lookup_seq_lt by done. simpl.
      specialize (Hget i j Hi Hj). unfold get2 in Hget. by rewrite Hrow in Hget.
    + rewrite lookup_seq_ge by done. apply lookup_ge_None.
      by rewrite (HW i row Hrow).
  - apply lookup_ge_None in Hrow. rewrite lookup_seq_ge by lia. done.
Qed.

(** ** Slices and the inner aperture *)

Lemma slice_bound_1 n : slice_bound n 1 = Nat.min 1 n.
Proof. unfold slice_bound. change (1 <? 0)%Z with false. lia. Qed.

Lemma slice_bound_m1 n : slice_bound n (-1) = n - 1.
Proof. unfold slice_bound. change (-1 <? 0)%Z with true. lia. Qed.

Lemma in_slice_1_m1 n k :
  in_slice n 1 (-1) k = (1 <=? k) && (k <? n - 1).
Proof.
  unfold in_slice. rewrite slice_bound_1, slice_bound_m1.
  destruct (Nat.leb_spec 1 k), (Nat.ltb_spec k (n - 1)),
    (Nat.leb_spec (Nat.min 1 n) k); simpl; try reflexivity; lia.
Qed.

Lemma rectb_np_mul_scalar H W a s :
  rectb H W a = true → rectb H W (np_mul_scalar a s) = true.
Proof.
  rewrite !rectb_spec. intros [HH HW]. unfold np_mul_scalar. split.
  - by rewrite length_map.
  - intros i row. rewrite list_lookup_fmap. intros (r & Hr & ->)%fmap_Some.
    rewrite length_map. eauto.
Qed.

Lemma get2_setitem_slice2 {A} (a : list (list A)) r0 r1 c0 c1 v i j x :
  get2 a i j = Some x →
  get2 (setitem_slice2 a r0 r1 c0 c1 v) i j =
  Some (if in_slice (length a) r0 r1 i
        then match a !! i with
             | Some row => if in_slice (length row) c0 c1 j then v else x
             | None => x
             end
        else x).
Proof.
  unfold get2, setitem_slice2. rewrite list_lookup_imap.
  destruct (a !! i) as [row|]; simpl; [|done]. intros Hx.
  destruct (in_slice (length a) r0 r1 i); [|done].
  rewrite list_lookup_imap, Hx. done.
Qed.

Lemma rectb_setitem_slice2 {A} H W (a : list (list A)) r0 r1 c0 c1 v :
  rectb H W a = true → rectb H W (setitem_slice2 a r0 r1 c0 c1 v) = true.
Proof.
  rewrite !rectb_spec. intros [HH HW]. unfold setitem_slice2. split.
  - by rewrite length_imap.
  - intros i row. rewrite list_lookup_imap.
    intros (r & Hr & ->)%fmap_Some.
    destruct (in_slice _ _ _ _); [rewrite length_imap|]; eauto.
Qed.

Lemma get2_rect {A} H W (a : list (list A)) i j :
  rectb H W a = true → i < H → j < W → is_Some (get2 a i j).
Proof.
  intros [HH HW]%rectb_spec Hi Hj. unfold get2.
  destruct (lookup_lt_is_Some_2 a i) as [row Hrow]; [lia|].
  rewrite Hrow. simpl. apply lookup_lt_is_Some_2. by rewrite (HW i row).
Qed.

Lemma get2_rect_lt {A} H W (a : list (list A)) i j x :
  rectb H W a = true → get2 a i j = Some x → i < H ∧ j < W.
Proof.
  intros [HH HW]%rectb_spec. unfold get2.
  destruct (a !! i) as [row|] eqn:Hrow; simpl; [|done]. intros Hx.
  split.
  - rewrite <- HH. eapply lookup_lt_Some; eauto.
  - rewrite <- (HW i row Hrow). eapply lookup_lt_Some; eauto.
Qed.

Lemma rectb_aper_mask_of H W pm :
  rectb H W pm = true → rectb H W (aper_mask_of pm) = true.
Proof.
  intros Hpm. by apply rectb_setitem_slice2, rectb_np_mul_scalar.
Qed.

(** The inner aperture is the table of the interior cells of the grid. *)
Lemma aper_mask_of_interior H W pm :
  rectb H W pm = true → aper_mask_of pm = tabulate2 H W (interior H W).
Proof.
  intros Hpm. apply rect_tabulate2; [by apply rectb_aper_mask_of|].
  intros i j Hi Hj. unfold aper_mask_of.
  pose proof (rectb_np_mul_scalar H W pm false Hpm) as Hz.
  destruct (get2_rect H W _ i j Hz Hi Hj) as [x Hx].
  rewrite (get2_setitem_slice2 _ _ _ _ _ _ _ _ x Hx).
  assert (x = false) as ->.
  { unfold get2, np_mul_scalar in Hx. rewrite list_lookup_fmap in Hx.
    destruct (pm !! i) as [row|]; simpl in Hx; [|done].
    rewrite list_lookup_fmap in Hx. destruct (row !! j); simpl in Hx; [|done].
    rewrite andb_false_r in Hx. congruence. }
  apply rectb_spec in Hz as [HH HW]. f_equal. rewrite HH.
  unfold get2 in Hx.
  match type of Hx with ?r ≫= _ = _ => destruct r as [row|] eqn:Hrow end;
    simpl in Hx; [|done].
  rewrite (HW i row Hrow), !in_slice_1_m1. unfold interior.
  destruct ((1 <=? i) && (i <? H - 1)); [|done].
  rewrite andb_true_l. by destruct ((1 <=? j) && (j <? W - 1)).
Qed.

(** ** Elementwise combination, reduction along time, broadcasting *)

Lemma get2_zip_with {A B C} (f : A → B → C) a b i j :
  get2 (zip_with (zip_with f) a b) i j =
  x ← get2 a i j; y ← get2 b i j; Some (f x y).
Proof.
  unfold get2. rewrite lookup_zip_with.
  destruct (a !! i) as [ra|]; simpl; [|done].
  destruct (b !! i) as [rb|]; simpl.
  - by rewrite lookup_zip_with.
  - by destruct (ra !! j).
Qed.

Lemma rectb_zip_with {A B C} (f : A → B → C) H W a b :
  rectb H W a = true → rectb H W b = true →
  rectb H W (zip_with (zip_with f) a b) = true.
Proof.
  rewrite !rectb_spec. intros [Ha Wa] [Hb Wb]. split.
  - rewrite length_zip_with. lia.
  - intros i row. rewrite lookup_zip_with.
    destruct (a !! i) as [ra|] eqn:Hra; simpl; [|done].
    destruct (b !! i) as [rb|] eqn:Hrb; simpl; [|done].
    intros [= <-]. rewrite length_zip_with, (Wa i ra), (Wb i rb) by done. lia.
Qed.

Lemma get2_map {A B} (f : A → B) a i j :
  get2 (map (map f) a) i j = f <$> get2 a i j.
Proof.
  unfold get2. rewrite list_lookup_fmap.
  destruct (a !! i) as [row|]; simpl; [|done]. by rewrite list_lookup_fmap.
Qed.

Lemma rectb_map {A B} (f : A → B) H W a :
  rectb H W a = true → rectb H W (map (map f) a) = true.
Proof.
  rewrite !rectb_spec. intros [HH HW]. split.
  - by rewrite length_map.
  - intros i row. rewrite list_lookup_fmap. intros (r & Hr & ->)%fmap_Some.
    rewrite length_map. eauto.
Qed.

Lemma all_axis0_tabulate H W (fs : list (list (list bool))) :
  forallb (rectb H W) fs = true →
  foldr (zip_with (zip_with andb)) (replicate H (replicate W true)) fs =
  tabulate2 H W (λ i j, forallb (λ fr, from_option id false (get2 fr i j)) fs).
Proof.
  induction fs as [|fr fs IH]; simpl.
  - intros _. apply rect_tabulate2.
    + apply rectb_spec. split; [by rewrite length_replicate|].
      intros i row [-> _]%lookup_replicate. by rewrite length_replicate.
    + intros i j Hi Hj. unfold get2.
      rewrite lookup_replicate_2 by done. simpl. by rewrite lookup_replicate_2.
  - intros [Hfr Hfs]%andb_true_iff. rewrite (IH Hfs).
    apply rect_tabulate2.
    + apply rectb_zip_with; [done | apply rectb_tabulate2].
    + intros i j Hi Hj. rewrite get2_zip_with, get2_tabulate2.
      destruct (get2_rect H W fr i j Hfr Hi Hj) as [x ->]. simpl.
      apply Nat.ltb_lt in Hi, Hj. by rewrite Hi, Hj.
Qed.

(** A pixel is flagged by [np.all(np.isnan(flux), axis=0)] exactly when it
    is NaN in every frame. *)
Lemma all_isnan_tabulate (c : ndarray3 fval) :
  cube_wfb c = true →
  np_all_axis0 (np_isnan c) = tabulate2 (nrows c) (ncols c) (allnan_at c).
Proof.
  intros Hwf. unfold np_all_axis0, np_isnan. simpl.
  rewrite all_axis0_tabulate.
  - apply tabulate2_ext. intros i j _ _. unfold allnan_at.
    induction (frames c) as [|fr fs IH]; simpl; [done|].
    rewrite IH. f_equal.
    rewrite get2_map. by destruct (get2 fr i j).
  - unfold cube_wfb in Hwf. rewrite forallb_forall in *.
    intros fr (fr0 & <- & Hin)%in_map_iff. apply rectb_map. by apply Hwf.
Qed.

Lemma stretch_id {A} n (l : list A) : length l = n → stretch n l = l.
Proof. destruct l as [|x [|y l]]; simpl; intros <-; done. Qed.

Lemma broadcast_to_id {A} H W (a : list (list A)) :
  rectb H W a = true → broadcast_to H W a = a.
Proof.
  intros [HH HW]%rectb_spec. unfold broadcast_to.
  assert (map (stretch W) a = a) as ->.
  { apply list_eq. intros i. rewrite list_lookup_fmap.
    destruct (a !! i) as [row|] eqn:Hrow; simpl; [|done].
    f_equal. apply stretch_id. eauto. }
  by apply stretch_id.
Qed.

Lemma broadcast_dim_refl n : broadcast_dim n n = Some n.
Proof. unfold broadcast_dim. by rewrite Nat.eqb_refl. Qed.

Lemma shape2_rect {A} H W (a : list (list A)) :
  rectb H W a = true → 1 ≤ H → shape2 a = (H, W).
Proof.
  intros [HH HW]%rectb_spec Hpos. unfold shape2. rewrite HH. f_equal.
  destruct a as [|row a]; simpl in *; [lia|]. by apply (HW 0).
Qed.

(** On operands of one shape, [&] is the cellwise conjunction. *)
Lemma np_and_rect H W a b :
  rectb H W a = true → rectb H W b = true →
  np_and a b = Ok (zip_with (zip_with andb) a b).
Proof.
  intros Ha Hb. unfold np_and.
  destruct H as [|H].
  - apply rectb_spec in Ha as [Ha%nil_length_inv _].
    apply rectb_spec in Hb as [Hb%nil_length_inv _]. by subst.
  - rewrite (shape2_rect (S H) W a), (shape2_rect (S H) W b) by (done || lia).
    simpl. rewrite !broadcast_dim_refl.
    by rewrite !broadcast_to_id.
Qed.

(** The background mask, cell by cell. *)
Lemma back_mask_of_tabulate H W pm (c : ndarray3 fval) :
  rectb H W pm = true → cube_wfb c = true → nrows c = H → ncols c = W →
  back_mask_of pm c =
  Ok (tabulate2 H W (λ i j, negb (interior H W i j) && negb (allnan_at c i j))).
Proof.
  intros Hpm Hwf <- <-. unfold back_mask_of.
  rewrite (aper_mask_of_interior _ _ pm Hpm), (all_isnan_tabulate c Hwf).
  unfold np_invert. erewrite np_and_rect; try (apply rectb_map, rectb_tabulate2).
  f_equal. apply rect_tabulate2.
  - apply rectb_zip_with; apply rectb_map, rectb_tabulate2.
  - intros i j Hi Hj. rewrite get2_zip_with, !get2_map, !get2_tabulate2.
    apply Nat.ltb_lt in Hi, Hj. by rewrite Hi, Hj.
Qed.

(** ** Cells of the two masks *)

Lemma allnan_at_invalid (c : ndarray3 fval) i j :
  allnan_at c i j = true ↔ all_time_invalid c i j.
Proof.
  unfold allnan_at, all_time_invalid. rewrite forallb_forall. split.
  - intros Hall t fr Hfr.
    assert (In fr (frames c)) as Hin.
    { apply list_elem_of_In. eapply list_elem_of_lookup_2; eauto. }
    specialize (Hall fr Hin). destruct (get2 fr i j) as [[q|]|]; done.
  - intros Hall fr Hin. apply list_elem_of_In, list_elem_of_lookup in Hin as [t Ht].
    by rewrite (Hall t fr Ht).
Qed.

Lemma tpf_wfb_spec H W tpf :
  tpf_wfb H W tpf = true ↔
  rectb H W (pipeline_mask tpf) = true ∧ cube_wfb (flux tpf) = true ∧
  nrows (flux tpf) = H ∧ ncols (flux tpf) = W.
Proof.
  unfold tpf_wfb. rewrite !andb_true_iff, !Nat.eqb_eq. tauto.
Qed.

Lemma aper_mask_of_lookup H W pm i j b :
  rectb H W pm = true →
  get2 (aper_mask_of pm) i j = Some b ↔ i < H ∧ j < W ∧ b = interior H W i j.
Proof.
  intros Hpm. rewrite (aper_mask_of_interior H W pm Hpm), get2_tabulate2.
  destruct (Nat.ltb_spec i H), (Nat.ltb_spec j W); simpl; split;
    first [ by intros [= <-] | by intros (_ & _ & ->) | done
          | intros (? & ? & _); lia ].
Qed.

Lemma back_mask_of_lookup H W tpf back i j :
  tpf_wfb H W tpf = true →
  back_mask_of (pipeline_mask tpf) (flux tpf) = Ok back →
  get2 back i j = Some true ↔
  i < H ∧ j < W ∧ interior H W i j = false ∧ ¬ all_time_invalid (flux tpf) i j.
Proof.
  intros (Hpm & Hwf & HH & HW)%tpf_wfb_spec.
  rewrite (back_mask_of_tabulate H W _ _ Hpm Hwf HH HW). intros [= <-].
  rewrite get2_tabulate2, <- allnan_at_invalid.
  destruct (Nat.ltb_spec i H), (Nat.ltb_spec j W); simpl;
    try (split; [done | intros (? & ? & _); lia]).
  destruct (interior H W i j), (allnan_at (flux tpf) i j); simpl;
    split; first [ done | by intros (_ & _ & ? & ?) | by intros _ ].
Qed.

(** ** Counting true cells *)

Lemma count_true_range a b s n :
  count_true (map (λ j, (a <=? j) && (j <? b)) (seq s n)) =
  Nat.min b (s + n) - Nat.max a s.
Proof.
  revert s. induction n as [|n IH]; intros s; simpl.
  - unfold count_true. simpl. lia.
  - unfold count_true in *. simpl. rewrite IH.
    destruct (Nat.leb_spec a s), (Nat.ltb_spec s b); simpl; lia.
Qed.

Lemma count_true_false {A} (l : list A) :
  count_true (map (λ _, false) l) = 0.
Proof. unfold count_true. induction l; simpl; auto. Qed.

Lemma np_sum_tabulate2 H W f :
  np_sum (tabulate2 H W f) =
  sum_list_with (λ i, count_true (map (f i) (seq 0 W))) (seq 0 H).
Proof.
  unfold np_sum, tabulate2. generalize (seq 0 H) as l.
  induction l as [|i l IH]; simpl; [done|].
  unfold count_true in *. by rewrite sum_list_with_app, IH.
Qed.

Lemma sum_list_with_cond (p : nat → bool) k l :
  sum_list_with (λ i, if p i then k else 0) l = count_true (map p l) * k.
Proof.
  unfold count_true. induction l as [|i l IH]; simpl; [done|].
  rewrite IH. destruct (p i); lia.
Qed.

Lemma count_true_interior_row H W i :
  count_true (map (interior H W i) (seq 0 W)) =
  if (1 <=? i) && (i <? H - 1) then W - 2 else 0.
Proof.
  unfold interior. destruct ((1 <=? i) && (i <? H - 1)).
  - rewrite (map_ext _ (λ j, (1 <=? j) && (j <? W - 1))) by done.
    rewrite count_true_range. lia.
  - apply count_true_false.
Qed.

(** The inner aperture of an [H] by [W] grid has (H-2)*(W-2) true cells. *)
Lemma np_sum_aper_mask_of H W pm :
  rectb H W pm = true → np_sum (aper_mask_of pm) = (H - 2) * (W - 2).
Proof.
  intros Hpm. rewrite (aper_mask_of_interior H W pm Hpm), np_sum_tabulate2.
  transitivity (sum_list_with
    (λ i, if (1 <=? i) && (i <? H - 1) then W - 2 else 0) (seq 0 H)).
  - generalize (seq 0 H) as l. induction l as [|i l IH]; [done|].
    cbn [sum_list_with]. by rewrite IH, count_true_interior_row.
  - rewrite sum_list_with_cond, count_true_range. lia.
Qed.

(** ** The spec's erosion and background, cell by cell *)

Lemma get2_imap2 {A B} (g : nat → list A → nat → A → B) a i j :
  get2 (imap (λ i row, imap (g i row) row) a) i j =
  row ← a !! i; g i row j <$> row !! j.
Proof.
  unfold get2. rewrite list_lookup_imap.
  destruct (a !! i) as [row|]; simpl; [|done]. by rewrite list_lookup_imap.
Qed.

Lemma rectb_imap2 {A B} (g : nat → list A → nat → A → B) H W a :
  rectb H W a = true → rectb H W (imap (λ i row, imap (g i row) row) a) = true.
Proof.
  rewrite !rectb_spec. intros [HH HW]. split.
  - by rewrite length_imap.
  - intros i row. rewrite list_lookup_imap. intros (r & Hr & ->)%fmap_Some.
    rewrite length_imap. eauto.
Qed.

Lemma rectb_full {A} H W (b : A) : rectb H W (full H W b) = true.
Proof.
  apply rectb_spec. unfold full. split; [by rewrite length_replicate|].
  intros i row [-> _]%lookup_replicate. by rewrite length_replicate.
Qed.

Lemma get2_full {A} H W (b : A) i j :
  i < H → j < W → get2 (full H W b) i j = Some b.
Proof.
  intros Hi Hj. unfold get2, full. rewrite lookup_replicate_2 by done.
  simpl. by rewrite lookup_replicate_2.
Qed.

Lemma spec_eroded_full H W :
  spec_eroded (full H W true) = tabulate2 H W (interior H W).
Proof.
  apply rect_tabulate2.
  - apply (rectb_imap2 (λ i row j b, b && interior _ (length row) i j)), rectb_full.
  - intros i j Hi Hj. unfold spec_eroded.
    rewrite (get2_imap2 (λ i row j b, b && interior _ (length row) i j)).
    unfold full. rewrite lookup_replicate_2 by done. simpl.
    rewrite lookup_replicate_2 by done. simpl.
    by rewrite !length_replicate.
Qed.

Lemma spec_background_tabulate H W f c :
  spec_background (tabulate2 H W f) c =
  tabulate2 H W (λ i j, negb (f i j) && negb (allnan_at c i j)).
Proof.
  apply rect_tabulate2.
  - apply (rectb_imap2 (λ i _ j b, negb b && negb (allnan_at c i j))),
      rectb_tabulate2.
  - intros i j Hi Hj. unfold spec_background.
    rewrite (get2_imap2 (λ i _ j b, negb b && negb (allnan_at c i j))).
    pose proof (get2_tabulate2 H W f i j) as Hget. unfold get2 in Hget.
    apply Nat.ltb_lt in Hi, Hj. rewrite Hi, Hj in Hget. simpl in Hget.
    destruct (tabulate2 H W f !! i) as [row|]; simpl in *; [|done].
    by rewrite Hget.
Qed.

Lemma interior_small H W i j : H ≤ 2 ∨ W ≤ 2 → interior H W i j = false.
Proof.
  intros Hsmall. unfold interior.
  destruct (Nat.leb_spec 1 i), (Nat.ltb_spec i (H - 1)),
    (Nat.leb_spec 1 j), (Nat.ltb_spec j (W - 1)); simpl; try reflexivity; lia.
Qed.

Lemma full_tabulate2 {A} H W (b : A) : full H W b = tabulate2 H W (λ _ _, b).
Proof.
  apply rect_tabulate2; [apply rectb_full|]. intros. by apply get2_full.
Qed.

(** ** Arithmetic of flux values *)

Lemma Qplus_0_r_eq (q : Q) : (q + 0)%Q = q.
Proof.
  destruct q as [n d]. unfold Qplus. simpl.
  by rewrite Z.mul_1_r, Z.add_0_r, Pos.mul_1_r.
Qed.

Lemma Qdiv_1_r_eq (q : Q) : (q / inject_Z 1)%Q = q.
Proof.
  destruct q as [n d]. unfold Qdiv, Qmult. simpl.
  by rewrite Z.mul_1_r, Pos.mul_1_r.
Qed.

Lemma Qopp_minus_eq (a b : Q) : (- (a - b))%Q = (b - a)%Q.
Proof.
  destruct a as [an ad], b as [bn bd]. unfold Qminus, Qplus, Qopp. simpl.
  f_equal; [|apply Pos.mul_comm].
  rewrite Z.opp_add_distr, !Z.mul_opp_l, Z.opp_involutive. apply Z.add_comm.
Qed.

Lemma fsum_single x : fsum [x] = x.
Proof. destruct x as [q|]; simpl; [|done]. by rewrite Qplus_0_r_eq. Qed.

Lemma fdiv_count_1 x : fdiv_count x 1 = x.
Proof.
  destruct x as [q|]; simpl; [|done].
  change (inject_Z (Z.of_nat 1)) with (inject_Z 1). by rewrite Qdiv_1_r_eq.
Qed.

Lemma fneg_fsub a b : fneg (fsub a b) = fsub b a.
Proof. destruct a, b; simpl; try done. by rewrite Qopp_minus_eq. Qed.

(** ** Selection by a mask with a single true cell *)

Lemma select_row_none {A} (row : list A) mrow :
  (∀ k, mrow !! k ≠ Some true) → select_row row mrow = [] ∧ count_true mrow = 0.
Proof.
  revert row. induction mrow as [|b mrow IH]; intros row Hnone.
  - by destruct row.
  - destruct b; [by destruct (Hnone 0)|].
    destruct (IH (tail row) (λ k, Hnone (S k))) as [Hs Hc].
    split; [|exact Hc]. destruct row as [|x row]; [done|]. exact Hs.
Qed.

Lemma select_row_single {A} (row : list A) mrow j x :
  mrow !! j = Some true → (∀ k, mrow !! k = Some true → k = j) →
  row !! j = Some x →
  select_row row mrow = [x] ∧ count_true mrow = 1.
Proof.
  revert row j. induction mrow as [|b mrow IH]; intros row j Hj Huniq Hx; [done|].
  destruct row as [|y row]; [done|]. destruct j as [|j]; simpl in *.
  - injection Hj as ->. injection Hx as ->.
    destruct (select_row_none row mrow) as [-> Hc].
    { intros k Hk. by specialize (Huniq (S k) Hk). }
    unfold count_true in *. simpl. by rewrite Hc.
  - destruct b; [by specialize (Huniq 0 eq_refl)|].
    apply (IH row j); auto. intros k Hk. by specialize (Huniq (S k) Hk) as [= ->].
Qed.

Lemma select_none {A} (fr : list (list A)) (m : mask) :
  (∀ i j, get2 m i j ≠ Some true) → select fr m = [] ∧ np_sum m = 0.
Proof.
  revert fr. induction m as [|mrow m IH]; intros fr Hnone.
  - by destruct fr.
  - destruct (IH (tail fr) (λ i, Hnone (S i))) as [Hs Hc].
    destruct (select_row_none (default [] (head fr)) mrow (Hnone 0)) as [Hr Hn].
    unfold np_sum, count_true in *. simpl. rewrite sum_list_with_app, Hn, Hc.
    split; [|done]. destruct fr as [|row fr]; [done|].
    unfold select in *. simpl in *. by rewrite Hr, Hs.
Qed.

Lemma select_single {A} (fr : list (list A)) (m : mask) i j x :
  get2 m i j = Some true →
  (∀ i' j', get2 m i' j' = Some true → i' = i ∧ j' = j) →
  get2 fr i j = Some x →
  select fr m = [x] ∧ np_sum m = 1.
Proof.
  revert fr i. induction m as [|mrow m IH]; intros fr i Hm Huniq Hx; [done|].
  destruct fr as [|row fr]; [done|]. destruct i as [|i].
  - unfold get2 in Hm, Hx. simpl in Hm, Hx.
    destruct (select_row_single row mrow j x Hm) as [Hr Hn]; [|done|].
    { intros k Hk. by destruct (Huniq 0 k Hk). }
    destruct (select_none fr m) as [Hs Hc].
    { intros i' j' Hij. by destruct (Huniq (S i') j' Hij). }
    unfold np_sum, count_true, select in *. simpl.
    by rewrite sum_list_with_app, Hr, Hs, Hn, Hc.
  - destruct (select_row_none row mrow) as [Hr Hn].
    { intros k Hk. by destruct (Huniq 0 k Hk). }
    destruct (IH fr i) as [Hs Hc]; [done| |done|].
    { intros i' j' Hij. destruct (Huniq (S i') j' Hij) as [[= ->] ->]. done. }
    unfold np_sum, count_true, select in *. simpl.
    by rewrite sum_list_with_app, Hr, Hs, Hn, Hc.
Qed.

(** ** Cubes without NaN *)

Lemma no_nanb_cell c fr i j x :
  no_nanb c = true → In fr (frames c) → get2 fr i j = Some x → isnan x = false.
Proof.
  unfold no_nanb. rewrite forallb_forall. intros Hc Hfr Hx.
  specialize (Hc fr Hfr). rewrite forallb_forall in Hc.
  unfold get2 in Hx. destruct (fr !! i) as [row|] eqn:Hrow; simpl in Hx; [|done].
  assert (In row fr) as Hin.
  { apply list_elem_of_In. eapply list_elem_of_lookup_2; eauto. }
  specialize (Hc row Hin). rewrite forallb_forall in Hc.
  apply negb_true_iff, Hc, list_elem_of_In. eapply list_elem_of_lookup_2; eauto.
Qed.

Lemma allnan_at_no_nan c i j :
  cube_wfb c = true → no_nanb c = true → frames c ≠ [] →
  i < nrows c → j < ncols c → allnan_at c i j = false.
Proof.
  intros Hwf Hnn Hne Hi Hj. unfold allnan_at.
  destruct (frames c) as [|fr fs] eqn:Hfs; [done|]. simpl.
  apply andb_false_iff. left.
  unfold cube_wfb in Hwf. rewrite Hfs in Hwf. simpl in Hwf.
  apply andb_true_iff in Hwf as [Hfr _].
  destruct (get2_rect _ _ fr i j Hfr Hi Hj) as [x Hx]. rewrite Hx. simpl.
  apply (no_nanb_cell c fr i j); auto. rewrite Hfs. by left.
Qed.

Lemma select_row_forallb {A} (p : A → bool) row mrow :
  forallb p row = true → forallb p (select_row row mrow) = true.
Proof.
  revert mrow. induction row as [|x row IH]; intros [|b mrow]; simpl; try done.
  intros [Hx Hrow]%andb_true_iff. destruct b; simpl; auto.
  rewrite Hx. simpl. auto.
Qed.

Lemma select_forallb {A} (p : A → bool) (fr : list (list A)) m :
  forallb (forallb p) fr = true → forallb p (select fr m) = true.
Proof.
  unfold select. revert m.
  induction fr as [|row fr IH]; intros [|mrow m]; simpl; try done.
  intros [Hrow Hfr]%andb_true_iff.
  rewrite forallb_app, (select_row_forallb p row mrow Hrow). simpl. auto.
Qed.

Lemma fsum_not_nan l :
  forallb (λ x, negb (isnan x)) l = true → isnan (fsum l) = false.
Proof.
  induction l as [|x l IH]; simpl; [done|].
  intros [Hx Hl]%andb_true_iff. specialize (IH Hl).
  destruct x, (fsum l); done.
Qed.

(** ** Counting, continued *)

Lemma count_true_pos l : count_true l ≠ 0 ↔ true ∈ l.
Proof.
  unfold count_true. induction l as [|b l IH]; simpl.
  - split; [done | by intros ?%elem_of_nil].
  - rewrite elem_of_cons. destruct b; simpl.
    + split; [by left | lia].
    + rewrite IH. split; [by right | by intros [?|?]].
Qed.

(** A boolean array sums to a nonzero count exactly when it has a true cell. *)
Lemma np_sum_pos_iff (m : mask) :
  np_sum m ≠ 0 ↔ ∃ i j, get2 m i j = Some true.
Proof.
  unfold np_sum. rewrite count_true_pos, list_elem_of_In, in_concat. split.
  - intros (row & Hin%list_elem_of_In & Hrow%list_elem_of_In).
    apply list_elem_of_lookup in Hin as [i Hi].
    apply list_elem_of_lookup in Hrow as [j Hj].
    exists i, j. unfold get2. by rewrite Hi.
  - intros (i & j & Hij). unfold get2 in Hij.
    destruct (m !! i) as [row|] eqn:Hrow; simpl in Hij; [|done].
    exists row. split; apply list_elem_of_In; eapply list_elem_of_lookup_2; eauto.
Qed.

Lemma count_true_negb {A} (p : A → bool) l :
  count_true (map (λ x, negb (p x)) l) + count_true (map p l) = length l.
Proof.
  unfold count_true. induction l as [|x l IH]; simpl; [done|].
  destruct (p x); simpl; lia.
Qed.

Lemma np_sum_tabulate2_negb H W (f : nat → nat → bool) :
  np_sum (tabulate2 H W (λ i j, negb (f i j))) + np_sum (tabulate2 H W f) = H * W.
Proof.
  rewrite !np_sum_tabulate2.
  assert (∀ l : list nat,
    sum_list_with (λ i, count_true (map (λ j, negb (f i j)) (seq 0 W))) l +
    sum_list_with (λ i, count_true (map (f i) (seq 0 W))) l = length l * W)
    as Hrows.
  { induction l as [|i l IH]; [done|]. cbn [sum_list_with length].
    pose proof (count_true_negb (f i) (seq 0 W)) as Hrow.
    rewrite length_seq in Hrow. lia. }
  by rewrite Hrows, length_seq.
Qed.

(** A cell of the grid that is not interior lies on the outermost ring. *)
Lemma interior_false_ring H W i j :
  i < H → j < W →
  interior H W i j = false ↔ i = 0 ∨ i = H - 1 ∨ j = 0 ∨ j = W - 1.
Proof.
  intros Hi Hj. unfold interior.
  destruct (Nat.leb_spec 1 i), (Nat.ltb_spec i (H - 1)),
    (Nat.leb_spec 1 j), (Nat.ltb_spec j (W - 1)); simpl;
    split; try done; try lia; intros _; lia.
Qed.

Lemma np_sum_full_false H W : np_sum (full H W false) = 0.
Proof.
  destruct (Nat.eq_dec (np_sum (full H W false)) 0) as [|Hne]; [done|].
  apply np_sum_pos_iff in Hne as (i & j & Hij).
  rewrite full_tabulate2, get2_tabulate2 in Hij.
  by destruct ((i <? H) && (j <? W)).
Qed.

(** ** Division by a pixel count *)

Lemma lc_truediv_nonzero lc n : n ≠ 0 → lc_truediv lc n = lc_div lc n.
Proof.
  intros Hn. unfold lc_truediv, lc_div.
  by destruct (Nat.eqb_spec n 0).
Qed.

Lemma mapM_fdiv_zero_zeros {A} (l : list A) :
  mapM fdiv_zero (map (λ _, Num 0) l) = Some (map (λ _, NaN) l).
Proof. induction l as [|x l IH]; [done|]. simpl. by rewrite IH. Qed.

(** A mask that sums to zero selects nothing. *)
Lemma select_np_sum_0 {A} (fr : list (list A)) (m : mask) :
  np_sum m = 0 → select fr m = [].
Proof.
  intros Hz. apply select_none. intros i j Hij.
  assert (np_sum m ≠ 0) by (apply np_sum_pos_iff; eauto). done.
Qed.

(** The mean flux over a mask, cadence by cadence.  With a mask that has no
    true cell the sum over no pixel, 0, is divided by the count 0: the flux
    is NaN at every cadence, and no infinity arises. *)
Lemma lc_truediv_to_lightcurve t c m :
  lc_truediv (to_lightcurve_of t c m) (np_sum m) =
  Ok (LC t (map (λ fr, if np_sum m =? 0 then NaN
                       else fdiv_count (fsum (select fr m)) (np_sum m))
                (frames c))).
Proof.
  unfold lc_truediv, lc_div, to_lightcurve_of. cbn [lc_time lc_flux].
  destruct (Nat.eqb_spec (np_sum m) 0) as [Hz|Hz].
  - rewrite (map_ext _ (λ _, Num 0)).
    + by rewrite mapM_fdiv_zero_zeros.
    + intros fr. by rewrite (select_np_sum_0 fr m Hz).
  - by rewrite map_map.
Qed.

(** ** The routine over the store *)

Lemma keeps_refl h : keeps h h.
Proof. by intros l o. Qed.

Lemma keeps_length h0 h : keeps h0 h → length h0 ≤ length h.
Proof.
  intros Hk. destruct (Nat.le_gt_cases (length h0) (length h)) as [|Hlt]; [done|].
  destruct (lookup_lt_is_Some_2 h0 (length h) Hlt) as [o Ho].
  apply Hk, lookup_lt_Some in Ho. lia.
Qed.

Lemma preserves_ret {A} h0 (a : A) : preserves h0 (ret a) (λ _, True).
Proof. by intros h Hh. Qed.

Lemma preserves_lift {A} h0 (r : result A) : preserves h0 (lift r) (λ _, True).
Proof. by intros h Hh. Qed.

Lemma preserves_load_mask h0 l : preserves h0 (load_mask l) (λ _, True).
Proof. by intros h Hh. Qed.

Lemma preserves_load_cube h0 l : preserves h0 (load_cube l) (λ _, True).
Proof. by intros h Hh. Qed.

Lemma preserves_load_bool_cube h0 l :
  preserves h0 (load_bool_cube l) (λ _, True).
Proof. by intros h Hh. Qed.

(** A new object lies behind the objects of [h0]. *)
Lemma preserves_alloc h0 o : preserves h0 (alloc o) (λ l, length h0 ≤ l).
Proof.
  intros h Hh. unfold alloc. simpl. split.
  - intros l x Hl. by apply lookup_app_l_Some, Hh.
  - intros a [= <-]. by apply keeps_length.
Qed.

(** Writing behind the objects of [h0] leaves them as they are. *)
Lemma preserves_store h0 l o :
  length h0 ≤ l → preserves h0 (store l o) (λ _, True).
Proof.
  intros Hl h Hh. unfold store. destruct (l <? length h); simpl; [|done].
  split; [|done]. intros l' x Hl'.
  rewrite list_lookup_insert_ne; [by apply Hh|].
  apply lookup_lt_Some in Hl'. lia.
Qed.

Lemma preserves_bind {A B} h0 (p : prog A) (k : A → prog B) Q R :
  preserves h0 p Q → (∀ a, Q a → preserves h0 (k a) R) →
  preserves h0 (pbind p k) R.
Proof.
  intros Hp Hk h Hh. unfold pbind. destruct (Hp h Hh) as [Hkeep HQ].
  destruct (p h) as [[a|f] h']; simpl in *.
  - by apply (Hk a (HQ a eq_refl)).
  - by split.
Qed.

(** Whatever its outcome, a run of the routine leaves the objects it found
    in the store as they were. *)
Lemma my_custom_lc_cleaner_prog_preserves remove_outliers tpfo h0 :
  preserves h0 (my_custom_lc_cleaner_prog remove_outliers tpfo) (λ _, True).
Proof.
  unfold my_custom_lc_cleaner_prog.
  repeat (eapply preserves_bind;
          [ first [ apply preserves_load_mask | apply preserves_load_cube
                  | apply preserves_load_bool_cube | apply preserves_alloc
                  | by apply preserves_store | apply preserves_lift ]
          | intros ? ? ]).
  apply preserves_ret.
Qed.

Lemma tpf_in_Some h tpfo tpf :
  tpf_in h tpfo = Some tpf →
  h !! pipeline_mask_ref tpfo = Some (BoolArray (pipeline_mask tpf)) ∧
  h !! flux_ref tpfo = Some (FloatCube (flux tpf)) ∧
  time tpf = time_of tpfo.
Proof.
  unfold tpf_in.
  destruct (h !! pipeline_mask_ref tpfo) as [[pm| |]|]; try done.
  destruct (h !! flux_ref tpfo) as [[|c|]|]; try done.
  by intros [= <-].
Qed.

Lemma tpf_in_keeps h h' tpfo tpf :
  keeps h h' → tpf_in h tpfo = Some tpf → tpf_in h' tpfo = Some tpf.
Proof.
  intros Hk (Hpm & Hc & Ht)%tpf_in_Some. unfold tpf_in.
  rewrite (Hk _ _ Hpm), (Hk _ _ Hc), <- Ht. by destruct tpf.
Qed.

Lemma alloc_app h k o :
  alloc o (h ++ k) = (Ok (length h + length k), h ++ (k ++ [o])).
Proof. unfold alloc. by rewrite length_app, app_assoc. Qed.

Lemma lookup_app_plus {A} (h k : list A) n : (h ++ k) !! (length h + n) = k !! n.
Proof. rewrite lookup_app_r by lia. f_equal. lia. Qed.

Lemma load_mask_new h k n a :
  k !! n = Some (BoolArray a) → load_mask (length h + n) (h ++ k) = (Ok a, h ++ k).
Proof. intros Hn. unfold load_mask. by rewrite lookup_app_plus, Hn. Qed.

Lemma load_bool_cube_new h k n c :
  k !! n = Some (BoolCube c) →
  load_bool_cube (length h + n) (h ++ k) = (Ok c, h ++ k).
Proof. intros Hn. unfold load_bool_cube. by rewrite lookup_app_plus, Hn. Qed.

Lemma load_mask_old h k l a :
  h !! l = Some (BoolArray a) → load_mask l (h ++ k) = (Ok a, h ++ k).
Proof. intros Hl. unfold load_mask. by rewrite (lookup_app_l_Some _ _ _ _ Hl). Qed.

Lemma load_cube_old h k l c :
  h !! l = Some (FloatCube c) → load_cube l (h ++ k) = (Ok c, h ++ k).
Proof. intros Hl. unfold load_cube. by rewrite (lookup_app_l_Some _ _ _ _ Hl). Qed.

Lemma store_new h k n o :
  n < length k →
  store (length h + n) o (h ++ k) = (Ok tt, h ++ <[n := o]> k).
Proof.
  intros Hn. unfold store. rewrite length_app, insert_app_r.
  by destruct (Nat.ltb_spec (length h + n) (length h + length k)); [|lia].
Qed.

Ltac run_step :=
  first [ rewrite alloc_app
        | erewrite load_mask_new by reflexivity
        | erewrite load_bool_cube_new by reflexivity
        | erewrite load_mask_old by eassumption
        | erewrite load_cube_old by eassumption
        | rewrite store_new by (simpl; lia) ];
  cbn [length app insert list_insert].

(** With references to a mask and a cube, the program returns what the
    routine on values returns. *)
Lemma my_custom_lc_cleaner_prog_run remove_outliers h tpfo tpf :
  tpf_in h tpfo = Some tpf →
  (my_custom_lc_cleaner_prog remove_outliers tpfo h).1 =
  my_custom_lc_cleaner remove_outliers tpf.
Proof.
  intros (Hpm & Hc & Ht)%tpf_in_Some.
  destruct tpf as [t c pm]. simpl in *. subst t.
  rewrite <- (app_nil_r h) at 1.
  unfold my_custom_lc_cleaner_prog, my_custom_lc_cleaner, pbind.
  do 14 run_step.
  fold (aper_mask_of pm). unfold lift.
  change (np_and _ _) with (back_mask_of pm c). cbn [pipeline_mask flux].
  destruct (back_mask_of pm c) as [b|f]; cbn [rbind]; [|done].
  do 3 run_step. unfold to_lightcurve. cbn [time flux].
  destruct (lc_truediv _ (np_sum (aper_mask_of pm))) as [lc_aper|f];
    cbn [rbind]; [|done].
  do 2 run_step.
  by destruct (lc_truediv _ (np_sum b)) as [lc_back|f].
Qed.

(** The routine in closed form: but for a shape mismatch at the [&], it
    returns, also when a pixel count is zero. *)
Lemma my_custom_lc_cleaner_closed remove_outliers tpf :
  my_custom_lc_cleaner remove_outliers tpf =
  rbind (back_mask_of (pipeline_mask tpf) (flux tpf)) (λ back,
    Ok (remove_outliers
          (LC (time tpf)
              (map (λ fr,
                      fsub (if np_sum (aper_mask_of (pipeline_mask tpf)) =? 0
                            then NaN
                            else fdiv_count
                                   (fsum (select fr (aper_mask_of (pipeline_mask tpf))))
                                   (np_sum (aper_mask_of (pipeline_mask tpf))))
                           (if np_sum back =? 0 then NaN
                            else fdiv_count (fsum (select fr back)) (np_sum back)))
                   (frames (flux tpf)))))).
Proof.
  unfold my_custom_lc_cleaner.
  destruct (back_mask_of _ _) as [back|f]; cbn [rbind]; [|done].
  unfold to_lightcurve. rewrite !lc_truediv_to_lightcurve. cbn [rbind].
  unfold background_subtractor, lc_sub. cbn [lc_time lc_flux].
  do 3 f_equal. induction (frames (flux tpf)) as [|fr fs IH]; [done|].
  cbn [map zip_with]. by rewrite IH.
Qed.

(** A run that stops at the [&] leaves the store it built so far: the two
    objects it found, the inner aperture and the temporaries of line 120. *)
Example my_custom_lc_cleaner_prog_shape_mismatch :
  my_custom_lc_cleaner_prog (λ lc, lc) (TPFObj [0%Q] 0 1)
    [FloatCube (cube_of 2 3 1 (Num 1)); BoolArray (full 3 3 true)] =
  (Fail ShapeMismatch,
   [FloatCube (cube_of 2 3 1 (Num 1)); BoolArray (full 3 3 true);
    BoolArray [[false; false; false]; [false; true; false]; [false; false; false]];
    BoolArray ring3;
    BoolCube (Cube 2 3 [full 2 3 false]);
    BoolArray (full 2 3 false);
    BoolArray (full 2 3 true)]).
Proof. reflexivity. Qed.

(** * The claims *)

(** ** C1 *)

(** C1, counterexample.  With the all-true 3 by 3 pipeline mask and a cube
    without NaN the background mask is the border ring, and the corner
    [(0, 0)] is true in the pipeline mask and in the background mask. *)
Lemma background_overlaps_source_mask :
  back_mask_of (full 3 3 true) (cube_of 3 3 3 (Num 1)) = Ok ring3 ∧
  ¬ disjoint2 (full 3 3 true) ring3.
Proof.
  split; [reflexivity|]. intros Hdis. by apply (Hdis 0 0).
Qed.

(** C1, amended.  The background mask is disjoint from the pipeline-provided
    source mask exactly when every true cell of the source mask lies in the
    inner aperture or at a pixel that is NaN in every cadence. *)
Theorem back_mask_disjoint_source_iff H W tpf :
  tpf_wfb H W tpf = true →
  ∃ back,
    back_mask_of (pipeline_mask tpf) (flux tpf) = Ok back ∧
    (disjoint2 (pipeline_mask tpf) back ↔
     ∀ i j, get2 (pipeline_mask tpf) i j = Some true →
            get2 (aper_mask_of (pipeline_mask tpf)) i j = Some true ∨
            all_time_invalid (flux tpf) i j).
Proof.
  intros Hwf. pose proof Hwf as (Hpm & Hc & HH & HW)%tpf_wfb_spec.
  eexists. split; [by apply (back_mask_of_tabulate H W)|].
  pose proof (back_mask_of_tabulate H W _ _ Hpm Hc HH HW) as Hback.
  split.
  - intros Hdis i j Hsrc.
    destruct (get2_rect_lt H W _ i j true Hpm Hsrc) as [Hi Hj].
    destruct (interior H W i j) eqn:Hin.
    { left. by apply (aper_mask_of_lookup H W). }
    destruct (allnan_at (flux tpf) i j) eqn:Hnan.
    { right. by apply allnan_at_invalid. }
    destruct (Hdis i j). split; [done|].
    apply (back_mask_of_lookup H W tpf); auto.
    repeat split; auto. rewrite <- allnan_at_invalid. congruence.
  - intros Hall i j [Hsrc Hb].
    apply (back_mask_of_lookup H W tpf _ i j Hwf Hback) in Hb
      as (_ & _ & Hin & Hnan).
    destruct (Hall i j Hsrc) as [Ha|Hinv]; [|done].
    apply (aper_mask_of_lookup H W) in Ha as (_ & _ & Ha); congruence.
Qed.

Lemma back_mask_disjoint_source_iff_witness :
  ∃ back,
    back_mask_of [[false; false; false]; [false; true; false]; [false; false; false]]
                 (cube_of 3 3 2 (Num 1)) = Ok back ∧
    (disjoint2 [[false; false; false]; [false; true; false]; [false; false; false]] back ↔
     ∀ i j, get2 [[false; false; false]; [false; true; false]; [false; false; false]] i j
              = Some true →
            get2 (aper_mask_of
                    [[false; false; false]; [false; true; false]; [false; false; false]])
                 i j = Some true ∨
            all_time_invalid (cube_of 3 3 2 (Num 1)) i j).
Proof.
  apply (back_mask_disjoint_source_iff 3 3
           (TPF [0%Q; 1%Q] (cube_of 3 3 2 (Num 1))
                [[false; false; false]; [false; true; false]; [false; false; false]])).
  reflexivity.
Defined.

(** ** C2 *)

(** C2, counterexample.  For the 3-cadence 3 by 3 cube of ones and the
    all-true 3 by 3 source mask the background mask is not all-false. *)
Lemma background_3x3_not_empty :
  back_mask_of (full 3 3 true) (cube_of 3 3 3 (Num 1)) ≠ Ok (full 3 3 false).
Proof. intros Heq. vm_compute in Heq. discriminate. Qed.

(** C2, amended.  For a 3-cadence 3 by 3 pixel cube with no invalid pixels
    and the all-true 3 by 3 source mask the background mask is true on the
    eight border cells and false at the centre; its pixel count is 8, so the
    flux aggregator applied to it does not divide by zero: it returns three
    flux values, none of them NaN. *)
Theorem background_3x3_is_ring t c :
  nrows c = 3 → ncols c = 3 → cube_wfb c = true →
  length (frames c) = 3 → no_nanb c = true →
  back_mask_of (full 3 3 true) c = Ok ring3 ∧
  np_sum ring3 = 8 ∧
  ∃ lc_back,
    flux_aggregator (TPF t c (full 3 3 true)) ring3 = Ok lc_back ∧
    length (lc_flux lc_back) = 3 ∧
    ∀ x, x ∈ lc_flux lc_back → isnan x = false.
Proof.
  intros HH HW Hwf HT Hnn. split; [|split; [reflexivity|]].
  - rewrite (back_mask_of_tabulate 3 3) by (done || apply rectb_full).
    f_equal. change ring3 with (tabulate2 3 3 (λ i j, negb (interior 3 3 i j))).
    apply tabulate2_ext. intros i j Hi Hj.
    rewrite allnan_at_no_nan; try done; try lia.
    + apply andb_true_r.
    + intros Hnil. by rewrite Hnil in HT.
  - unfold flux_aggregator, lc_div. change (np_sum ring3) with 8. simpl.
    eexists. split; [reflexivity|]. simpl. split; [by rewrite !length_map|].
    intros x (y & -> & Hy)%list_elem_of_fmap.
    apply list_elem_of_fmap in Hy as (fr & -> & Hfr%list_elem_of_In).
    assert (isnan (fsum (select fr ring3)) = false) as Hsum.
    { apply fsum_not_nan, select_forallb.
      unfold no_nanb in Hnn. rewrite forallb_forall in Hnn. auto. }
    by destruct (fsum (select fr ring3)).
Qed.

Lemma background_3x3_is_ring_witness :
  back_mask_of (full 3 3 true) (cube_of 3 3 3 (Num 1)) = Ok ring3 ∧
  np_sum ring3 = 8 ∧
  ∃ lc_back,
    flux_aggregator (TPF [0%Q; 1%Q; 2%Q] (cube_of 3 3 3 (Num 1)) (full 3 3 true))
                    ring3 = Ok lc_back ∧
    length (lc_flux lc_back) = 3 ∧
    ∀ x, x ∈ lc_flux lc_back → isnan x = false.
Proof.
  apply (background_3x3_is_ring [0%Q; 1%Q; 2%Q] (cube_of 3 3 3 (Num 1)));
    reflexivity.
Defined.

(** ** C3 *)

(** C3, counterexample.  For the all-false 3 by 3 source mask the inner
    aperture contains the centre pixel, which no erosion of that mask
    contains, and the background mask is the border ring, not the nine
    non-source pixels. *)
Lemma inner_aperture_is_not_eroded_source :
  aper_mask_of (full 3 3 false) ≠ spec_eroded (full 3 3 false) ∧
  back_mask_of (full 3 3 false) (cube_of 3 3 3 (Num 1)) ≠
  Ok (spec_background (full 3 3 false) (cube_of 3 3 3 (Num 1))).
Proof. split; intros Heq; vm_compute in Heq; discriminate. Qed.

(** C3, amended.  For every source mask the inner aperture equals the
    all-true mask of the source mask's shape eroded by one pixel on each
    border, and the background mask equals exactly the set of pixel
    locations that are outside the inner aperture and not missing. *)
Theorem partitioner_masks H W tpf :
  tpf_wfb H W tpf = true →
  aper_mask_of (pipeline_mask tpf) = spec_eroded (full H W true) ∧
  back_mask_of (pipeline_mask tpf) (flux tpf) =
  Ok (spec_background (aper_mask_of (pipeline_mask tpf)) (flux tpf)).
Proof.
  intros (Hpm & Hc & HH & HW)%tpf_wfb_spec. split.
  - by rewrite spec_eroded_full, (aper_mask_of_interior H W).
  - rewrite (back_mask_of_tabulate H W _ _ Hpm Hc HH HW).
    by rewrite (aper_mask_of_interior H W _ Hpm), spec_background_tabulate.
Qed.

Lemma partitioner_masks_witness :
  aper_mask_of [[true; false; true; true]; [false; true; true; false];
                [true; true; false; false]] = spec_eroded (full 3 4 true) ∧
  back_mask_of [[true; false; true; true]; [false; true; true; false];
                [true; true; false; false]] (cube_of 3 4 2 NaN) =
  Ok (spec_background
        (aper_mask_of [[true; false; true; true]; [false; true; true; false];
                       [true; true; false; false]]) (cube_of 3 4 2 NaN)).
Proof.
  apply (partitioner_masks 3 4
           (TPF [0%Q; 1%Q] (cube_of 3 4 2 NaN)
                [[true; false; true; true]; [false; true; true; false];
                 [true; true; false; false]])).
  reflexivity.
Defined.

(** ** C4 *)

(** C4.  For a source mask and a pixel cube of one spatial shape (any
    shape, in particular H, W >= 3) the background mask and the inner
    aperture are disjoint, and the background mask is true exactly at the
    pixel locations outside the inner aperture that are not invalid across
    all time samples. *)
Theorem back_mask_outside_inner_aperture H W tpf :
  tpf_wfb H W tpf = true →
  ∃ back,
    back_mask_of (pipeline_mask tpf) (flux tpf) = Ok back ∧
    disjoint2 back (aper_mask_of (pipeline_mask tpf)) ∧
    ∀ i j, get2 back i j = Some true ↔
           get2 (aper_mask_of (pipeline_mask tpf)) i j = Some false ∧
           ¬ all_time_invalid (flux tpf) i j.
Proof.
  intros Hwf. pose proof Hwf as (Hpm & Hc & HH & HW)%tpf_wfb_spec.
  pose proof (back_mask_of_tabulate H W _ _ Hpm Hc HH HW) as Hback.
  eexists. split; [exact Hback|]. split.
  - intros i j [Hb Ha].
    apply (back_mask_of_lookup H W tpf _ i j Hwf Hback) in Hb
      as (_ & _ & Hin & _).
    apply (aper_mask_of_lookup H W) in Ha as (_ & _ & Ha); congruence.
  - intros i j. rewrite (back_mask_of_lookup H W tpf _ i j Hwf Hback).
    rewrite (aper_mask_of_lookup H W _ i j false Hpm). split.
    + intros (Hi & Hj & Hin & Hnan). auto.
    + intros ((Hi & Hj & Hin) & Hnan). auto.
Qed.

Lemma back_mask_outside_inner_aperture_witness :
  ∃ back,
    back_mask_of (full 3 4 true) (Cube 3 4 [full 3 4 NaN; [[NaN; Num 1; Num 2; NaN];
                                             [NaN; Num 3; NaN; Num 4];
                                             [Num 5; NaN; Num 6; NaN]]]) = Ok back ∧
    disjoint2 back (aper_mask_of (full 3 4 true)) ∧
    ∀ i j, get2 back i j = Some true ↔
           get2 (aper_mask_of (full 3 4 true)) i j = Some false ∧
           ¬ all_time_invalid
               (Cube 3 4 [full 3 4 NaN; [[NaN; Num 1; Num 2; NaN];
                                         [NaN; Num 3; NaN; Num 4];
                                         [Num 5; NaN; Num 6; NaN]]]) i j.
Proof.
  apply (back_mask_outside_inner_aperture 3 4
    (TPF [0%Q; 1%Q]
         (Cube 3 4 [full 3 4 NaN; [[NaN; Num 1; Num 2; NaN];
                                   [NaN; Num 3; NaN; Num 4];
                                   [Num 5; NaN; Num 6; NaN]]])
         (full 3 4 true))).
  reflexivity.
Defined.

(** ** C5 *)

(** C5.  With a mask that has exactly one true cell, at [(i, j)], the flux
    aggregator divides by 1 and yields at every cadence the flux of that
    cell unchanged. *)
Theorem flux_aggregator_single_cell H W tpf m i j :
  tpf_wfb H W tpf = true → rectb H W m = true →
  get2 m i j = Some true →
  (∀ i' j', get2 m i' j' = Some true → i' = i ∧ j' = j) →
  np_sum m = 1 ∧
  ∃ lc,
    flux_aggregator tpf m = Ok lc ∧
    lc_time lc = time tpf ∧
    length (lc_flux lc) = length (frames (flux tpf)) ∧
    ∀ t fr, frames (flux tpf) !! t = Some fr →
            is_Some (get2 fr i j) ∧ lc_flux lc !! t = get2 fr i j.
Proof.
  intros (_ & Hc & HH & HW)%tpf_wfb_spec Hm Hij Huniq.
  destruct (get2_rect_lt H W m i j true Hm Hij) as [Hi Hj].
  assert (∀ fr, In fr (frames (flux tpf)) → is_Some (get2 fr i j)) as Hcell.
  { intros fr Hin. unfold cube_wfb in Hc. rewrite forallb_forall in Hc.
    apply (get2_rect H W); auto. rewrite <- HH, <- HW. by apply Hc. }
  assert (np_sum m = 1) as Hone.
  { destruct (select_single (A := bool) m m i j true Hij Huniq Hij) as [_ Hn].
    exact Hn. }
  split; [exact Hone|]. unfold flux_aggregator, lc_div. rewrite Hone. simpl.
  eexists. split; [reflexivity|]. simpl. split; [done|].
  split; [by rewrite !length_map|].
  intros t fr Hfr.
  assert (In fr (frames (flux tpf))) as Hin.
  { apply list_elem_of_In. eapply list_elem_of_lookup_2; eauto. }
  destruct (Hcell fr Hin) as [x Hx]. split; [by eexists|].
  rewrite !list_lookup_fmap, Hfr. simpl.
  destruct (select_single fr m i j x Hij Huniq Hx) as [-> _].
  by rewrite fsum_single, fdiv_count_1, Hx.
Qed.

Lemma flux_aggregator_single_cell_witness :
  np_sum [[false; false; false]; [false; false; true]] = 1 ∧
  ∃ lc,
    flux_aggregator
      (TPF [0%Q; 1%Q]
           (Cube 2 3 [[[Num 1; Num 2; Num 3]; [Num 4; Num 5; Num (7 # 2)]];
                      [[Num 1; NaN; Num 3]; [Num 4; Num 5; NaN]]])
           (full 2 3 true))
      [[false; false; false]; [false; false; true]] = Ok lc ∧
    lc_time lc = [0%Q; 1%Q] ∧
    length (lc_flux lc) = 2 ∧
    ∀ t fr,
      [[[Num 1; Num 2; Num 3]; [Num 4; Num 5; Num (7 # 2)]];
       [[Num 1; NaN; Num 3]; [Num 4; Num 5; NaN]]] !! t = Some fr →
      is_Some (get2 fr 1 2) ∧ lc_flux lc !! t = get2 fr 1 2.
Proof.
  apply (flux_aggregator_single_cell 2 3
    (TPF [0%Q; 1%Q]
         (Cube 2 3 [[[Num 1; Num 2; Num 3]; [Num 4; Num 5; Num (7 # 2)]];
                    [[Num 1; NaN; Num 3]; [Num 4; Num 5; NaN]]])
         (full 2 3 true))
    [[false; false; false]; [false; false; true]] 1 2);
    [reflexivity | reflexivity | reflexivity |].
  intros [|[|[|i']]] [|[|[|[|j']]]] Hij; vm_compute in Hij; by try discriminate.
Defined.

(** ** C6 *)

(** C6.  For two series with the same time stamps and cadence count the
    background subtractor gives at each cadence index the difference of the
    fluxes at that index, and negating the result of subtracting B from A
    gives the result of subtracting A from B. *)
Theorem background_subtractor_antisymmetric A B :
  lc_time A = lc_time B → length (lc_flux A) = length (lc_flux B) →
  length (lc_flux (background_subtractor A B)) = length (lc_flux A) ∧
  (∀ k a b, lc_flux A !! k = Some a → lc_flux B !! k = Some b →
            lc_flux (background_subtractor A B) !! k = Some (fsub a b)) ∧
  lc_neg (background_subtractor A B) = background_subtractor B A.
Proof.
  intros Htime Hlen. unfold background_subtractor, lc_sub, lc_neg. simpl.
  split; [rewrite length_zip_with; lia|]. split.
  - intros k a b Ha Hb. by rewrite lookup_zip_with, Ha, Hb.
  - rewrite Htime. f_equal. clear Htime.
    revert Hlen. generalize (lc_flux B) as fb. generalize (lc_flux A) as fa.
    induction fa as [|a fa IH]; intros [|b fb] Hlen; simpl in *; try done.
    rewrite fneg_fsub. f_equal. apply IH. lia.
Qed.

Lemma background_subtractor_antisymmetric_witness :
  length (lc_flux (background_subtractor
                     (LC [0%Q; 1%Q; 2%Q] [Num 5; Num (1 # 2); NaN])
                     (LC [0%Q; 1%Q; 2%Q] [Num 2; Num 3; Num 1]))) = 3 ∧
  (∀ k a b, [Num 5; Num (1 # 2); NaN] !! k = Some a →
            [Num 2; Num 3; Num 1] !! k = Some b →
            lc_flux (background_subtractor
                       (LC [0%Q; 1%Q; 2%Q] [Num 5; Num (1 # 2); NaN])
                       (LC [0%Q; 1%Q; 2%Q] [Num 2; Num 3; Num 1])) !! k
            = Some (fsub a b)) ∧
  lc_neg (background_subtractor
            (LC [0%Q; 1%Q; 2%Q] [Num 5; Num (1 # 2); NaN])
            (LC [0%Q; 1%Q; 2%Q] [Num 2; Num 3; Num 1])) =
  background_subtractor (LC [0%Q; 1%Q; 2%Q] [Num 2; Num 3; Num 1])
                        (LC [0%Q; 1%Q; 2%Q] [Num 5; Num (1 # 2); NaN]).
Proof.
  apply (background_subtractor_antisymmetric
           (LC [0%Q; 1%Q; 2%Q] [Num 5; Num (1 # 2); NaN])
           (LC [0%Q; 1%Q; 2%Q] [Num 2; Num 3; Num 1])); reflexivity.
Defined.

(** ** C7 *)

(** C7.  For a source mask of any shape H by W with H, W >= 1 (and a cube of
    that spatial shape) the partitioner returns a background mask, of the
    shape of the source mask; on a grid of width or height at most 2 the
    inner aperture is empty. *)
Theorem partitioner_total H W tpf :
  tpf_wfb H W tpf = true → 1 ≤ H → 1 ≤ W →
  ∃ back,
    back_mask_of (pipeline_mask tpf) (flux tpf) = Ok back ∧
    shape2 back = shape2 (pipeline_mask tpf) ∧
    rectb H W back = true ∧
    (H ≤ 2 ∨ W ≤ 2 → aper_mask_of (pipeline_mask tpf) = full H W false).
Proof.
  intros (Hpm & Hc & HH & HW)%tpf_wfb_spec HH1 HW1.
  eexists. split; [by apply (back_mask_of_tabulate H W)|].
  split; [|split].
  - rewrite (shape2_rect H W (pipeline_mask tpf)) by done.
    apply shape2_rect; [apply rectb_tabulate2 | done].
  - apply rectb_tabulate2.
  - intros Hsmall. rewrite (aper_mask_of_interior H W) by done.
    rewrite full_tabulate2. apply tabulate2_ext. intros.
    by apply interior_small.
Qed.

Lemma partitioner_total_witness :
  ∃ back,
    back_mask_of [[true; false]] (Cube 1 2 [[[Num 1; NaN]]]) = Ok back ∧
    shape2 back = shape2 [[true; false]] ∧
    rectb 1 2 back = true ∧
    (1 ≤ 2 ∨ 2 ≤ 2 → aper_mask_of [[true; false]] = full 1 2 false).
Proof.
  apply (partitioner_total 1 2
           (TPF [0%Q] (Cube 1 2 [[[Num 1; NaN]]]) [[true; false]]));
    [reflexivity | lia | lia].
Defined.

(** ** C8 *)

(** C8.  For a source mask of shape H by W with H, W >= 3 the inner aperture
    has exactly (H-2)*(W-2) >= 1 true cells, so the divisor of the
    source-aperture series is positive and its normalization does not
    divide by zero. *)
Theorem inner_aperture_divisor_positive H W tpf :
  rectb H W (pipeline_mask tpf) = true → 3 ≤ H → 3 ≤ W →
  np_sum (aper_mask_of (pipeline_mask tpf)) = (H - 2) * (W - 2) ∧
  1 ≤ (H - 2) * (W - 2) ∧
  ∃ lc_aper,
    flux_aggregator tpf (aper_mask_of (pipeline_mask tpf)) = Ok lc_aper.
Proof.
  intros Hpm HH HW. rewrite (np_sum_aper_mask_of H W) by done.
  split; [done|]. split; [nia|].
  unfold flux_aggregator, lc_div. rewrite (np_sum_aper_mask_of H W) by done.
  destruct (Nat.eqb_spec ((H - 2) * (W - 2)) 0) as [Hz|Hz]; [nia|]. eauto.
Qed.

Lemma inner_aperture_divisor_positive_witness :
  np_sum (aper_mask_of (full 4 5 true)) = (4 - 2) * (5 - 2) ∧
  1 ≤ (4 - 2) * (5 - 2) ∧
  ∃ lc_aper,
    flux_aggregator (TPF [0%Q] (cube_of 4 5 1 (Num 2)) (full 4 5 true))
                    (aper_mask_of (full 4 5 true)) = Ok lc_aper.
Proof.
  apply (inner_aperture_divisor_positive 4 5
           (TPF [0%Q] (cube_of 4 5 1 (Num 2)) (full 4 5 true)));
    [reflexivity | lia | lia].
Defined.

(** ** C9 *)

(** C9.  Two source masks of one shape give identical inner apertures, and
    with pixel cubes that have the same all-time-invalid pattern (in
    particular with the same cube) identical background masks: which cells
    of the source mask are true plays no part. *)
Theorem partitioner_ignores_source_cells H W m1 m2 c1 c2 :
  rectb H W m1 = true → rectb H W m2 = true →
  np_all_axis0 (np_isnan c1) = np_all_axis0 (np_isnan c2) →
  aper_mask_of m1 = aper_mask_of m2 ∧
  back_mask_of m1 c1 = back_mask_of m2 c2.
Proof.
  intros H1 H2 Hc.
  assert (aper_mask_of m1 = aper_mask_of m2) as Ha
    by by rewrite (aper_mask_of_interior H W m1), (aper_mask_of_interior H W m2).
  split; [done|]. unfold back_mask_of. by rewrite Ha, Hc.
Qed.

Lemma partitioner_ignores_source_cells_witness :
  aper_mask_of (full 3 3 true) =
  aper_mask_of [[false; true; false]; [false; false; false]; [true; false; false]] ∧
  back_mask_of (full 3 3 true) (Cube 3 3 [full 3 3 NaN]) =
  back_mask_of [[false; true; false]; [false; false; false]; [true; false; false]]
               (Cube 3 3 [full 3 3 NaN; full 3 3 NaN]).
Proof.
  apply (partitioner_ignores_source_cells 3 3); reflexivity.
Defined.

(** ** C10 *)

(** C10.  The background subtractor changes only the flux: the time values
    of its output are those of the source-aperture series, and so is the
    cadence count; the series that the routine subtracts (the one of the
    inner aperture and the one of another mask, such as the background mask)
    always have the time stamps and the cadence count of the pixel file.  A run of the routine, whatever its
    outcome, leaves every object that was in the store before it unchanged,
    in particular the pixel cube and the pipeline mask of the pixel file,
    and it returns what the routine on values returns. *)
Theorem my_custom_lc_cleaner_frame remove_outliers h tpfo tpf :
  tpf_in h tpfo = Some tpf →
  (∀ lc_aper lc_back,
     length (lc_flux lc_aper) = length (lc_flux lc_back) →
     lc_time (background_subtractor lc_aper lc_back) = lc_time lc_aper ∧
     length (lc_flux (background_subtractor lc_aper lc_back)) =
     length (lc_flux lc_aper)) ∧
  (∀ back lc_aper lc_back,
     lc_truediv (to_lightcurve tpf (aper_mask_of (pipeline_mask tpf)))
                (np_sum (aper_mask_of (pipeline_mask tpf))) = Ok lc_aper →
     lc_truediv (to_lightcurve tpf back) (np_sum back) = Ok lc_back →
     lc_time lc_aper = time tpf ∧
     length (lc_flux lc_aper) = length (frames (flux tpf)) ∧
     length (lc_flux lc_back) = length (frames (flux tpf)) ∧
     lc_time (background_subtractor lc_aper lc_back) = time tpf ∧
     length (lc_flux (background_subtractor lc_aper lc_back)) =
     length (frames (flux tpf))) ∧
  keeps h (my_custom_lc_cleaner_prog remove_outliers tpfo h).2 ∧
  tpf_in (my_custom_lc_cleaner_prog remove_outliers tpfo h).2 tpfo = Some tpf ∧
  (my_custom_lc_cleaner_prog remove_outliers tpfo h).1 =
  my_custom_lc_cleaner remove_outliers tpf.
Proof.
  intros Hin.
  assert (keeps h (my_custom_lc_cleaner_prog remove_outliers tpfo h).2) as Hkeep.
  { apply (my_custom_lc_cleaner_prog_preserves remove_outliers tpfo h h),
      keeps_refl. }
  split; [|split; [|split; [exact Hkeep|split]]].
  - intros lc_aper lc_back Hlen. unfold background_subtractor, lc_sub. simpl.
    split; [done|]. rewrite length_zip_with. lia.
  - intros back lc_aper lc_back. unfold to_lightcurve.
    rewrite !lc_truediv_to_lightcurve. intros [= <-] [= <-].
    unfold background_subtractor, lc_sub. cbn [lc_time lc_flux].
    rewrite length_zip_with, !length_map. repeat split; lia.
  - by apply (tpf_in_keeps h).
  - by apply my_custom_lc_cleaner_prog_run.
Qed.

Lemma my_custom_lc_cleaner_frame_witness :
  (∀ lc_aper lc_back,
     length (lc_flux lc_aper) = length (lc_flux lc_back) →
     lc_time (background_subtractor lc_aper lc_back) = lc_time lc_aper ∧
     length (lc_flux (background_subtractor lc_aper lc_back)) =
     length (lc_flux lc_aper)) ∧
  (∀ back lc_aper lc_back,
     lc_truediv (to_lightcurve (TPF [0%Q; 1%Q] (cube_of 2 3 2 (Num 1))
                                    (full 2 3 true))
                               (aper_mask_of (full 2 3 true)))
                (np_sum (aper_mask_of (full 2 3 true))) = Ok lc_aper →
     lc_truediv (to_lightcurve (TPF [0%Q; 1%Q] (cube_of 2 3 2 (Num 1))
                                    (full 2 3 true)) back)
                (np_sum back) = Ok lc_back →
     lc_time lc_aper = [0%Q; 1%Q] ∧
     length (lc_flux lc_aper) = 2 ∧
     length (lc_flux lc_back) = 2 ∧
     lc_time (background_subtractor lc_aper lc_back) = [0%Q; 1%Q] ∧
     length (lc_flux (background_subtractor lc_aper lc_back)) = 2) ∧
  keeps [FloatCube (cube_of 2 3 2 (Num 1)); BoolArray (full 2 3 true)]
        (my_custom_lc_cleaner_prog (λ lc, lc) (TPFObj [0%Q; 1%Q] 0 1)
           [FloatCube (cube_of 2 3 2 (Num 1)); BoolArray (full 2 3 true)]).2 ∧
  tpf_in (my_custom_lc_cleaner_prog (λ lc, lc) (TPFObj [0%Q; 1%Q] 0 1)
            [FloatCube (cube_of 2 3 2 (Num 1)); BoolArray (full 2 3 true)]).2
         (TPFObj [0%Q; 1%Q] 0 1) =
  Some (TPF [0%Q; 1%Q] (cube_of 2 3 2 (Num 1)) (full 2 3 true)) ∧
  (my_custom_lc_cleaner_prog (λ lc, lc) (TPFObj [0%Q; 1%Q] 0 1)
     [FloatCube (cube_of 2 3 2 (Num 1)); BoolArray (full 2 3 true)]).1 =
  my_custom_lc_cleaner (λ lc, lc)
    (TPF [0%Q; 1%Q] (cube_of 2 3 2 (Num 1)) (full 2 3 true)).
Proof.
  apply (my_custom_lc_cleaner_frame (λ lc, lc)
           [FloatCube (cube_of 2 3 2 (Num 1)); BoolArray (full 2 3 true)]
           (TPFObj [0%Q; 1%Q] 0 1)
           (TPF [0%Q; 1%Q] (cube_of 2 3 2 (Num 1)) (full 2 3 true))).
  reflexivity.
Defined.

(** * Further properties of the routine *)

(** ** X1 *)

(** X1.  The background mask is the outermost ring of the grid without the
    pixels that are NaN in every cadence: a cell is true in it exactly when
    it lies in the first or last row or column and is not invalid across all
    time samples. *)
Theorem back_mask_is_outermost_ring H W tpf :
  tpf_wfb H W tpf = true →
  ∃ back,
    back_mask_of (pipeline_mask tpf) (flux tpf) = Ok back ∧
    ∀ i j, get2 back i j = Some true ↔
           i < H ∧ j < W ∧ (i = 0 ∨ i = H - 1 ∨ j = 0 ∨ j = W - 1) ∧
           ¬ all_time_invalid (flux tpf) i j.
Proof.
  intros Hwf. pose proof Hwf as (Hpm & Hc & HH & HW)%tpf_wfb_spec.
  pose proof (back_mask_of_tabulate H W _ _ Hpm Hc HH HW) as Hback.
  eexists. split; [exact Hback|]. intros i j.
  rewrite (back_mask_of_lookup H W tpf _ i j Hwf Hback). split.
  - intros (Hi & Hj & Hin & Hnan). by rewrite <- interior_false_ring.
  - intros (Hi & Hj & Hring & Hnan). by rewrite interior_false_ring.
Qed.

Lemma back_mask_is_outermost_ring_witness :
  ∃ back,
    back_mask_of (full 4 3 false) (Cube 4 3 [full 4 3 NaN; full 4 3 (Num 1)])
    = Ok back ∧
    ∀ i j, get2 back i j = Some true ↔
           i < 4 ∧ j < 3 ∧ (i = 0 ∨ i = 4 - 1 ∨ j = 0 ∨ j = 3 - 1) ∧
           ¬ all_time_invalid (Cube 4 3 [full 4 3 NaN; full 4 3 (Num 1)]) i j.
Proof.
  apply (back_mask_is_outermost_ring 4 3
           (TPF [0%Q; 1%Q] (Cube 4 3 [full 4 3 NaN; full 4 3 (Num 1)])
                (full 4 3 false))).
  reflexivity.
Defined.

(** ** X2 *)

(** X2.  When no pixel is NaN in every cadence, the background mask and the
    inner aperture together cover the grid: the two counts add up to H*W.
    So [back_mask.sum()] is 2*H + 2*W - 4 on a grid with at least two rows
    and two columns, and H*W on a grid with a single row or column. *)
Theorem back_mask_count H W tpf :
  tpf_wfb H W tpf = true →
  np_all_axis0 (np_isnan (flux tpf)) = full H W false →
  ∃ back,
    back_mask_of (pipeline_mask tpf) (flux tpf) = Ok back ∧
    np_sum back + np_sum (aper_mask_of (pipeline_mask tpf)) = H * W ∧
    (2 ≤ H → 2 ≤ W → np_sum back + 4 = 2 * H + 2 * W) ∧
    (H ≤ 1 ∨ W ≤ 1 → np_sum back = H * W).
Proof.
  intros (Hpm & Hc & HH & HW)%tpf_wfb_spec Hnan.
  eexists. split; [by apply (back_mask_of_tabulate H W)|].
  assert (tabulate2 H W
            (λ i j, negb (interior H W i j) && negb (allnan_at (flux tpf) i j)) =
          tabulate2 H W (λ i j, negb (interior H W i j))) as ->.
  { apply tabulate2_ext. intros i j Hi Hj.
    assert (allnan_at (flux tpf) i j = false) as ->; [|apply andb_true_r].
    rewrite (all_isnan_tabulate _ Hc), HH, HW in Hnan.
    assert (get2 (tabulate2 H W (allnan_at (flux tpf))) i j = Some false) as Hget
      by (rewrite Hnan; by apply get2_full).
    rewrite get2_tabulate2 in Hget. apply Nat.ltb_lt in Hi, Hj.
    rewrite Hi, Hj in Hget. simpl in Hget. congruence. }
  pose proof (np_sum_tabulate2_negb H W (interior H W)) as Hsum.
  pose proof (np_sum_aper_mask_of H W _ Hpm) as Haper.
  rewrite (aper_mask_of_interior H W _ Hpm) in *.
  split; [exact Hsum|]. split.
  - intros H2 W2.
    destruct H as [|[|H]]; [lia|lia|]. destruct W as [|[|W]]; [lia|lia|].
    replace (S (S H) - 2) with H in Haper by lia.
    replace (S (S W) - 2) with W in Haper by lia. nia.
  - intros Hsmall.
    assert ((H - 2) * (W - 2) = 0) as Hz by (destruct Hsmall; nia). lia.
Qed.

Lemma back_mask_count_witness :
  ∃ back,
    back_mask_of (full 4 5 true) (Cube 4 5 [full 4 5 NaN; full 4 5 (Num 1)])
    = Ok back ∧
    np_sum back + np_sum (aper_mask_of (full 4 5 true)) = 4 * 5 ∧
    (2 ≤ 4 → 2 ≤ 5 → np_sum back + 4 = 2 * 4 + 2 * 5) ∧
    (4 ≤ 1 ∨ 5 ≤ 1 → np_sum back = 4 * 5).
Proof.
  apply (back_mask_count 4 5
           (TPF [0%Q; 1%Q] (Cube 4 5 [full 4 5 NaN; full 4 5 (Num 1)])
                (full 4 5 true))); reflexivity.
Defined.

(** ** X3 *)

(** X3.  On a grid of height or width at most 2 the slice [1:-1] selects
    nothing and [aper_mask.sum()] is 0.  The routine does not stop there:
    the source-aperture series is 0/0 at every cadence, and what is handed
    to [remove_outliers] has the time stamps of the pixel file and a NaN
    flux at every cadence (for a pixel file with at least one cadence). *)
Theorem cleaner_degenerate_grid remove_outliers H W tpf :
  tpf_wfb H W tpf = true → 1 ≤ length (frames (flux tpf)) →
  H ≤ 2 ∨ W ≤ 2 →
  np_sum (aper_mask_of (pipeline_mask tpf)) = 0 ∧
  ∃ lc_bg_sub,
    my_custom_lc_cleaner remove_outliers tpf = Ok (remove_outliers lc_bg_sub) ∧
    lc_time lc_bg_sub = time tpf ∧
    lc_flux lc_bg_sub = map (λ _, NaN) (frames (flux tpf)).
Proof.
  intros (Hpm & Hc & HH & HW)%tpf_wfb_spec _ Hsmall.
  assert (np_sum (aper_mask_of (pipeline_mask tpf)) = 0) as Hz
    by (rewrite (np_sum_aper_mask_of H W) by done; nia).
  split; [exact Hz|]. unfold my_custom_lc_cleaner.
  rewrite (back_mask_of_tabulate H W _ _ Hpm Hc HH HW). cbn [rbind].
  unfold to_lightcurve. rewrite !lc_truediv_to_lightcurve. cbn [rbind].
  eexists. split; [reflexivity|].
  unfold background_subtractor, lc_sub. cbn [lc_time lc_flux].
  split; [done|]. rewrite Hz. cbn [Nat.eqb].
  induction (frames (flux tpf)) as [|fr fs IH]; [done|].
  cbn [map zip_with]. by rewrite IH.
Qed.

Lemma cleaner_degenerate_grid_witness :
  np_sum (aper_mask_of [[true; true; false]; [true; false; true]]) = 0 ∧
  ∃ lc_bg_sub,
    my_custom_lc_cleaner (λ lc, lc)
      (TPF [0%Q] (cube_of 2 3 1 (Num 1)) [[true; true; false]; [true; false; true]])
    = Ok ((λ lc, lc) lc_bg_sub) ∧
    lc_time lc_bg_sub = [0%Q] ∧
    lc_flux lc_bg_sub = map (λ _, NaN) (frames (cube_of 2 3 1 (Num 1))).
Proof.
  apply (cleaner_degenerate_grid (λ lc, lc) 2 3
           (TPF [0%Q] (cube_of 2 3 1 (Num 1))
                [[true; true; false]; [true; false; true]]));
    [reflexivity | simpl; lia | lia].
Defined.

(** ** X4 *)

(** X4.  On a pixel file whose mask and frames have one shape, neither of
    the two divisors [aper_mask.sum()] and [back_mask.sum()] is zero exactly
    when the grid is at least 3 by 3 and some pixel of the outermost ring is
    not NaN in every cadence. *)
Theorem cleaner_divisors_nonzero_iff H W tpf :
  tpf_wfb H W tpf = true →
  ∃ back,
    back_mask_of (pipeline_mask tpf) (flux tpf) = Ok back ∧
    (np_sum (aper_mask_of (pipeline_mask tpf)) ≠ 0 ∧ np_sum back ≠ 0 ↔
     3 ≤ H ∧ 3 ≤ W ∧
     ∃ i j, i < H ∧ j < W ∧ (i = 0 ∨ i = H - 1 ∨ j = 0 ∨ j = W - 1) ∧
            ¬ all_time_invalid (flux tpf) i j).
Proof.
  intros Hwf. pose proof Hwf as (Hpm & Hc & HH & HW)%tpf_wfb_spec.
  pose proof (back_mask_of_tabulate H W _ _ Hpm Hc HH HW) as Hback.
  eexists. split; [exact Hback|].
  rewrite (np_sum_aper_mask_of H W _ Hpm), np_sum_pos_iff.
  split.
  - intros [Ha (i & j & Hij)].
    apply (back_mask_of_lookup H W tpf _ i j Hwf Hback) in Hij
      as (Hi & Hj & Hin & Hnan).
    split; [nia|]. split; [nia|]. exists i, j.
    by rewrite <- interior_false_ring.
  - intros (H3 & W3 & i & j & Hi & Hj & Hring & Hnan). split; [nia|].
    exists i, j. apply (back_mask_of_lookup H W tpf _ i j Hwf Hback).
    by rewrite interior_false_ring.
Qed.

Lemma cleaner_divisors_nonzero_iff_witness :
  ∃ back,
    back_mask_of (full 3 3 true) (Cube 3 3 [frame_a; frame_b]) = Ok back ∧
    (np_sum (aper_mask_of (full 3 3 true)) ≠ 0 ∧ np_sum back ≠ 0 ↔
     3 ≤ 3 ∧ 3 ≤ 3 ∧
     ∃ i j, i < 3 ∧ j < 3 ∧ (i = 0 ∨ i = 3 - 1 ∨ j = 0 ∨ j = 3 - 1) ∧
            ¬ all_time_invalid (Cube 3 3 [frame_a; frame_b]) i j).
Proof.
  apply (cleaner_divisors_nonzero_iff 3 3
           (TPF [0%Q; 1%Q] (Cube 3 3 [frame_a; frame_b]) (full 3 3 true))).
  reflexivity.
Defined.

(** ** X5 *)

(** X5.  For a cube without cadences, [np.all] over the empty time axis
    flags every pixel, so the background mask is all false and
    [back_mask.sum()] is 0, whatever the grid size. *)
Theorem back_mask_no_cadences H W pm :
  rectb H W pm = true →
  back_mask_of pm (Cube H W []) = Ok (full H W false) ∧
  np_sum (full H W false) = 0.
Proof.
  intros Hpm. split; [|apply np_sum_full_false].
  rewrite (back_mask_of_tabulate H W) by done. f_equal.
  rewrite full_tabulate2. apply tabulate2_ext. intros i j _ _.
  apply andb_false_r.
Qed.

Lemma back_mask_no_cadences_witness :
  back_mask_of (full 4 4 true) (Cube 4 4 []) = Ok (full 4 4 false) ∧
  np_sum (full 4 4 false) = 0.
Proof. apply (back_mask_no_cadences 4 4 (full 4 4 true)). reflexivity. Defined.

(** ** X6 *)

(** X6.  When the pipeline mask and the frames of the cube differ along an
    axis and neither has length 1 there, the [&] of the two masks cannot
    broadcast: the background mask is not built and the routine stops with
    the shape mismatch. *)
Theorem cleaner_shape_mismatch remove_outliers H W tpf :
  rectb H W (pipeline_mask tpf) = true → cube_wfb (flux tpf) = true →
  1 ≤ H → 1 ≤ nrows (flux tpf) →
  (H ≠ nrows (flux tpf) ∧ H ≠ 1 ∧ nrows (flux tpf) ≠ 1) ∨
  (W ≠ ncols (flux tpf) ∧ W ≠ 1 ∧ ncols (flux tpf) ≠ 1) →
  back_mask_of (pipeline_mask tpf) (flux tpf) = Fail ShapeMismatch ∧
  my_custom_lc_cleaner remove_outliers tpf = Fail ShapeMismatch.
Proof.
  intros Hpm Hc HH HH' Hdiff.
  assert (back_mask_of (pipeline_mask tpf) (flux tpf) = Fail ShapeMismatch)
    as Hback.
  { unfold back_mask_of, np_and, np_invert.
    rewrite (shape2_rect H W) by (try done; by apply rectb_map, rectb_aper_mask_of).
    rewrite (shape2_rect (nrows (flux tpf)) (ncols (flux tpf)))
      by (try done; rewrite all_isnan_tabulate by done;
          apply rectb_map, rectb_tabulate2).
    cbn [fst snd]. unfold broadcast_dim.
    destruct Hdiff as [(Hne & H1 & H1')|(Hne & H1 & H1')].
    - apply Nat.eqb_neq in Hne, H1, H1'. by rewrite Hne, H1, H1'.
    - apply Nat.eqb_neq in Hne, H1, H1'. rewrite Hne, H1, H1'.
      by repeat match goal with |- context [if ?b then _ else _] => destruct b end. }
  split; [exact Hback|]. unfold my_custom_lc_cleaner. by rewrite Hback.
Qed.

Lemma cleaner_shape_mismatch_witness :
  back_mask_of (full 3 3 true) (cube_of 2 3 1 (Num 1)) = Fail ShapeMismatch ∧
  my_custom_lc_cleaner (λ lc, lc)
    (TPF [0%Q] (cube_of 2 3 1 (Num 1)) (full 3 3 true)) = Fail ShapeMismatch.
Proof.
  apply (cleaner_shape_mismatch (λ lc, lc) 3 3
           (TPF [0%Q] (cube_of 2 3 1 (Num 1)) (full 3 3 true)));
    [reflexivity | reflexivity | lia | simpl; lia | left; simpl; lia].
Defined.
